(** * A shallow embedding of the promql-engine operator core

    Two source files are embedded:
    - the execution plan builder ([newOperator], package [executionplan]);
    - the function operator family ([NewFunctionOperator],
      [functionOperator.Next], [loadSeries], [dropLabel], package
      [function]).

    Go values are modelled as the code has them: [(T, error)] results as a
    three-way [outcome] (value, returned error, run-time panic), slices as a
    backing array plus a length so that in-place compaction and aliasing are
    visible, operators pulled through an interface as an explicit store of
    child states with a log of the calls made on them. *)

From stdpp Require Import gmap strings list.
From Stdlib Require Import ZArith.
From Equations Require Import Equations.

#[local] Set Warnings "-register-all".

Open Scope Z_scope.
Open Scope string_scope.
Open Scope list_scope.
Open Scope nat_scope.

(** ** Results of Go calls *)

(** Go errors are values carrying a message. *)
Definition error := string.

(** What a Go call returning [(T, error)] can do: return a value with a nil
    error, return an error (with a nil value), or panic at run time (index
    out of range, failed type assertion). *)
Inductive outcome (A : Type) : Type :=
| Ok (a : A)
| Err (e : error)
| Panic.
Arguments Ok {A} a.
Arguments Err {A} e.
Arguments Panic {A}.

Definition is_Err {A} (r : outcome A) : bool :=
  match r with Err _ => true | _ => false end.

(** ** The execution plan builder *)

Module executionplan.

(** [parser.ItemType] is an integer token kind. *)
Definition ItemType := Z.

Record Matcher := mkMatcher {
  MatchType : Z;
  MatchName : string;
  MatchValue : string
}.

(** The expression kinds of the query-language parser. A matrix selector
    holds its vector selector as an [Expr], as in the parser, so that the
    builder's type assertion on it is visible. *)
Inductive Expr : Type :=
| AggregateExpr (Op : ItemType) (inner : Expr) (Param : option Expr)
                (Grouping : list string) (Without : bool)
| VectorSelector (Name : string) (LabelMatchers : list Matcher)
| MatrixSelector (VectorSel : Expr) (Range : Z)
| Call (Func : string) (Args : list Expr)
| NumberLiteral (Val : Z)
| StringLiteral (Val : string)
| ParenExpr (e : Expr)
| UnaryExpr (Op : ItemType) (e : Expr)
| BinaryExpr (Op : ItemType) (LHS RHS : Expr)
| SubqueryExpr (e : Expr) (Range : Z).

(** What the builder takes from its collaborators: the storage handle's
    type, [e.String()] (the textual form of an expression, from the parser),
    and which aggregation operators the aggregate operator rejects, with the
    error it gives. *)
Class Collaborators := {
  Storage : Type;
  exprString : Expr → string;
  aggregationError : ItemType → option error
}.

Section Builder.

Context {env : Collaborators}.

(** The operator tree. The constructors of the individual operators live
    outside the two embedded files; each node records the arguments its
    constructor was called with. *)
Inductive VectorOperator : Type :=
| aggregate (next : VectorOperator) (aggregation : ItemType)
            (flag : bool) (labels : list string)
| vectorSelector (storage : Storage) (matchers : list Matcher)
                 (mint maxt step : Z)
| matrixSelector (storage : Storage) (matchers : list Matcher)
                 (mint maxt step : Z) (selectRange : Z)
| concurrentOp (next : VectorOperator).

(** Modelled from the spec: [NewAggregate] is not in the embedded files.
    "unknown aggregation operators are rejected at construction time"; an
    accepted one yields the aggregate node with the arguments as passed. *)
Definition NewAggregate (next : VectorOperator) (op : ItemType)
    (flag : bool) (labels : list string) : outcome VectorOperator :=
  match aggregationError op with
  | Some e => Err e
  | None => Ok (aggregate next op flag labels)
  end.

Definition NewVectorSelector (storage : Storage) (matchers : list Matcher)
    (mint maxt step : Z) : VectorOperator :=
  vectorSelector storage matchers mint maxt step.

Definition NewMatrixSelector (storage : Storage) (matchers : list Matcher)
    (mint maxt step selectRange : Z) : VectorOperator :=
  matrixSelector storage matchers mint maxt step selectRange.

Definition concurrent (next : VectorOperator) : VectorOperator :=
  concurrentOp next.

(** [fmt.Errorf("unsupported expression %s", e)] *)
Definition unsupported (e : Expr) : error :=
  "unsupported expression " +:+ exprString e.

Fixpoint newOperator (expr : Expr) (storage : Storage) (mint maxt step : Z)
    : outcome (VectorOperator) :=
  match expr with
  | AggregateExpr Op inner _ Grouping Without =>
      match newOperator inner storage mint maxt step with
      | Ok next =>
          match NewAggregate next Op (negb Without) Grouping with
          | Ok agg => Ok (concurrent agg)
          | Err e => Err e
          | Panic => Panic
          end
      | Err e => Err e
      | Panic => Panic
      end
  | VectorSelector _ LabelMatchers =>
      Ok (concurrent (NewVectorSelector storage LabelMatchers mint maxt step))
  | Call _ Args =>
      match Args with
      | [] => Panic (* e.Args[0] on an empty argument list *)
      | MatrixSelector vsel Range :: _ =>
          match vsel with
          | VectorSelector _ LabelMatchers =>
              Ok (concurrent (NewMatrixSelector storage LabelMatchers
                                                mint maxt step Range))
          | _ => Panic (* t.VectorSelector.( *parser.VectorSelector) *)
          end
      | _ :: _ => Err (unsupported expr)
      end
  | _ => Err (unsupported expr)
  end.

Definition New := newOperator.

(** The flag of the aggregate operator at the root of a built tree, under
    its concurrency decorator. *)
Definition rootAggregateFlag (op : VectorOperator) : option bool :=
  match op with
  | concurrentOp (aggregate _ _ flag _) => Some flag
  | _ => None
  end.

(** Expression kinds with a case of their own in the builder's type switch. *)
Definition isAggregateExpr (e : Expr) : bool :=
  match e with AggregateExpr _ _ _ _ _ => true | _ => false end.
Definition isVectorSelector (e : Expr) : bool :=
  match e with VectorSelector _ _ => true | _ => false end.
Definition isMatrixSelector (e : Expr) : bool :=
  match e with MatrixSelector _ _ => true | _ => false end.
Definition isCall (e : Expr) : bool :=
  match e with Call _ _ => true | _ => false end.

(** A call "whose argument is a matrix selector", read as the builder reads
    it: the first argument. *)
Definition isCallOnMatrixSelector (e : Expr) : bool :=
  match e with
  | Call _ (a :: _) => isMatrixSelector a
  | _ => false
  end.

(** The expression under the aggregations of [e], and the aggregation
    operators met on the way down, outermost first. *)
Fixpoint aggregated (e : Expr) : Expr :=
  match e with
  | AggregateExpr _ inner _ _ _ => aggregated inner
  | _ => e
  end.

Fixpoint aggregations (e : Expr) : list ItemType :=
  match e with
  | AggregateExpr Op inner _ _ _ => Op :: aggregations inner
  | _ => []
  end.

(** The leaves the builder has an operator for: a vector selector, or a call
    whose first argument is a matrix selector over a vector selector. *)
Definition isLeaf (e : Expr) : bool :=
  match e with
  | VectorSelector _ _ => true
  | Call _ (MatrixSelector (VectorSelector _ _) _ :: _) => true
  | _ => false
  end.

(** The leaves on which the builder panics: a call without arguments, or a
    call on a matrix selector that does not hold a vector selector. *)
Definition isPanicLeaf (e : Expr) : bool :=
  match e with
  | Call _ [] => true
  | Call _ (MatrixSelector v _ :: _) => negb (isVectorSelector v)
  | _ => false
  end.

(** The number of concurrency decorators in an operator tree, and of
    aggregate operators. *)
Fixpoint decorators (o : VectorOperator) : nat :=
  match o with
  | aggregate next _ _ _ => decorators next
  | concurrentOp next => S (decorators next)
  | _ => 0
  end.

Fixpoint aggregates (o : VectorOperator) : list (ItemType * bool * list string) :=
  match o with
  | aggregate next op flag labels => (op, flag, labels) :: aggregates next
  | concurrentOp next => aggregates next
  | _ => []
  end.

(** The aggregations of an expression as the builder passes them on:
    operator, negated "without" marker, grouping labels. *)
Fixpoint aggregationArgs (e : Expr) : list (ItemType * bool * list string) :=
  match e with
  | AggregateExpr Op inner _ Grouping Without =>
      (Op, negb Without, Grouping) :: aggregationArgs inner
  | _ => []
  end.

End Builder.

(** *** Collaborators to run the builder with

    No storage, a printer giving a call by its name, and an aggregate operator that rejects negative token kinds. *)

Definition testExprString (e : Expr) : string :=
  match e with
  | Call f _ => f +:+ "(...)"
  | VectorSelector name _ => name
  | NumberLiteral _ => "number"
  | StringLiteral v => v
  | _ => "expr"
  end.

#[global] Instance testCollaborators : Collaborators := {|
  Storage := unit;
  exprString := testExprString;
  aggregationError :=
    λ op, if (op <? 0)%Z then Some "unknown aggregation" else None
|}.

Definition testStorage : @Storage testCollaborators := tt.

End executionplan.

(** ** The function operator family *)

Module function.

(** *** Labels *)

Record Label := mkLabel { Name : string; Value : string }.

#[global] Instance Label_eq_dec : EqDecision Label.
Proof. solve_decision. Defined.

Definition Labels := list Label.

(** [labels.MetricName] *)
Definition MetricName : string := "__name__".

Definition emptyLabel : Label := mkLabel "" "".

(** One round of the callback given to [l.Range] in [dropLabel]: the
    accumulator is the scratch builder's content and [ret]. *)
Definition dropLabelStep (name : string) (acc : list Label * Label)
    (l : Label) : list Label * Label :=
  if String.eqb (Name l) name then (acc.1, l) else (acc.1 ++ [l], acc.2).

(** [dropLabel] removes the label with [name] from [l] and returns the
    dropped label. The scratch builder is reset before use, so it starts
    empty. *)
Definition dropLabel (l : Labels) (name : string) : Labels * Label :=
  match l with
  | [] => (l, emptyLabel)
  | _ => foldl (dropLabelStep name) ([], emptyLabel) l
  end.

Definition DropMetricName (l : Labels) : Labels * Label :=
  dropLabel l MetricName.

(** *** Go slices and step vectors *)

(** A Go slice: the first [len] cells of a backing array [arr]; the
    capacity is [length arr]. Copies of a slice header share [arr]. *)
Record slice (A : Type) := mkSlice { arr : list A; len : nat }.
Arguments mkSlice {A}.
Arguments arr {A}.
Arguments len {A}.

(** The elements a slice denotes. *)
Definition elems {A} (s : slice A) : list A := take (len s) (arr s).

Definition sliceOf {A} (l : list A) : slice A := mkSlice l (length l).

(** [s[i]], [None] when the index is out of range (a panic in Go). *)
Definition sget {A} (s : slice A) (i : nat) : option A :=
  if decide (i < len s) then arr s !! i else None.

(** [append(s[:i], s[i+1:]...)]: the cells after [i] move one place down
    in the same backing array, the length drops by one and the last cell
    keeps its stale content. [None] when [i] is out of range. *)
Definition sremove {A} (s : slice A) (i : nat) : option (slice A) :=
  if decide (i < len s) then
    Some (mkSlice (take i (arr s) ++ take (len s - S i) (drop (S i) (arr s))
                     ++ drop (len s - 1) (arr s))
                  (len s - 1))
  else None.

(** [append(s, x)]: written into the backing array when capacity is left,
    into a fresh array otherwise. *)
Definition sappend {A} (s : slice A) (x : A) : slice A :=
  if decide (len s < length (arr s)) then
    mkSlice (<[len s := x]> (arr s)) (S (len s))
  else mkSlice (take (len s) (arr s) ++ [x]) (S (len s)).

(** A slice is well formed when its length is within its capacity. *)
Definition swf {A} (s : slice A) : Prop := len s ≤ length (arr s).

(** The types the operators take from the language and its libraries:
    [float64] with [math.NaN()] and the literal [0.], the histogram type,
    and [time.Time], which is used through [UnixMilli] only. *)
Class Platform := {
  float64 : Type;
  NaN : float64;
  zero : float64;
  FloatHistogram : Type;
  Time : Type;
  UnixMilli : Time → Z
}.

(** The limits the run time of the language has on a machine: the size of a
    word in bytes, and [maxAlloc], the size in bytes of the largest
    allocation. On a 64-bit machine they are 8 and 2^48. *)
Class Machine := {
  wordSize : Z;
  maxAlloc : Z
}.

(** [make([]T, n)] returns when the length is not negative and [n] elements
    of [elemSize] bytes fit in an allocation, and panics otherwise. *)
Definition makesliceOk `{Machine} (elemSize n : Z) : bool :=
  (0 <=? n)%Z && (n * elemSize <=? maxAlloc)%Z.
#[global] Arguments makesliceOk : simpl never.

Section Operator.

Context {platform : Platform}.

(** [model.StepVector] *)
Record StepVector := mkStepVector {
  T : Z;
  SampleIDs : slice N;
  Samples : slice float64;
  HistogramIDs : slice N;
  Histograms : slice FloatHistogram
}.

(** Modelled from the spec: the step vector's methods live in the [model]
    package, outside the embedded files. "the sample is removed from the
    batch (an in-place compaction, not a copy)": value and ID are removed
    at the same index of their slices. *)
Definition RemoveSample (s : StepVector) (index : nat) : option StepVector :=
  match sremove (Samples s) index, sremove (SampleIDs s) index with
  | Some vals, Some ids =>
      Some (mkStepVector (T s) ids vals (HistogramIDs s) (Histograms s))
  | _, _ => None
  end.

(** Modelled from the spec: as [RemoveSample], on the histogram slices. *)
Definition RemoveHistogram (s : StepVector) (index : nat) : option StepVector :=
  match sremove (Histograms s) index, sremove (HistogramIDs s) index with
  | Some hs, Some ids =>
      Some (mkStepVector (T s) (SampleIDs s) (Samples s) ids hs)
  | _, _ => None
  end.

(** Modelled from the spec: "a new scalar sample carrying the same sample ID
    is appended". The pool argument only supplies capacity for the first
    sample of a step and is left out. *)
Definition AppendSample (s : StepVector) (id : N) (val : float64) : StepVector :=
  mkStepVector (T s) (sappend (SampleIDs s) id) (sappend (Samples s) val)
               (HistogramIDs s) (Histograms s).

(** [vector.Samples[i] = v], a write through the loop variable's copy of the
    slice header into the shared backing array. *)
Definition setSample (s : StepVector) (i : nat) (v : float64) : StepVector :=
  mkStepVector (T s) (SampleIDs s)
               (mkSlice (<[i := v]> (arr (Samples s))) (len (Samples s)))
               (HistogramIDs s) (Histograms s).

(** A read through the loop variable's copy: same backing array, the length
    [n0] the slice had when the copy was taken. *)
Definition aliasGet {A} (s : slice A) (n0 : nat) (i : nat) : option A :=
  sget (mkSlice (arr s) n0) i.

(** The scalar samples and the histogram samples of a step, each with its
    sample ID. *)
Definition samplesOf (s : StepVector) : list (N * float64) :=
  zip (elems (SampleIDs s)) (elems (Samples s)).
Definition histogramsOf (s : StepVector) : list (N * FloatHistogram) :=
  zip (elems (HistogramIDs s)) (elems (Histograms s)).

(** [functionCall]: the body of a built-in function, given the sample value,
    the histogram (nil for a scalar sample) and the scalar inputs. *)
Definition functionCall : Type :=
  float64 → option FloatHistogram → list float64 → float64 * bool.

(** *** The per-step loops of [Next] *)

(** One round of the loop over the scalar samples of a step, entered with
    [i < len(vectors[batchIndex].Samples)]. [n0] is the length of the loop
    variable's copy [vector.Samples]; [args] is [o.scalarPoints[batchIndex]],
    [None] when that index is out of range. The result is the step vector
    and the index for the next round. *)
Definition sampleStep (call : functionCall) (args : option (list float64))
    (n0 : nat) (s : StepVector) (i : nat) : outcome (StepVector * nat) :=
  match aliasGet (Samples s) n0 i, args with
  | Some x, Some a =>
      let '(v, ok) := call x None a in
      if ok then Ok (setSample s i v, S i)
      else match RemoveSample s i with
           | Some s' => Ok (s', i)
           | None => Panic
           end
  | _, _ => Panic
  end.

Definition inspect {A} (a : A) : {b : A | a = b} := exist _ a eq_refl.

(** [for i < len(vectors[batchIndex].Samples) { ... }] *)
Equations sampleLoop (call : functionCall) (args : option (list float64))
    (n0 : nat) (s : StepVector) (i : nat) : outcome StepVector
    by wf (len (Samples s) - i) lt :=
  sampleLoop call args n0 s i with decide (i < len (Samples s)) := {
    | right _ => Ok s
    | left Hi with inspect (sampleStep call args n0 s i) := {
        | exist _ (Ok (s', i')) Heq => sampleLoop call args n0 s' i'
        | exist _ (Err e) _ => Err e
        | exist _ Panic _ => Panic } }.
Next Obligation.
  revert Heq. unfold sampleStep, RemoveSample, sremove. intros H.
  destruct (aliasGet _ _ _); [|done]. destruct args; [|done].
  destruct (call _ _ _) as [v []].
  - inversion H; subst; simpl. lia.
  - repeat case_decide; inversion H; subst; simpl; lia.
Qed.

(** One round of the loop over the histogram samples of a step; the index
    stays at [i]. [h0] is the length of the copy [vector.Histograms]. *)
Definition histogramStep (call : functionCall) (args : option (list float64))
    (h0 : nat) (s : StepVector) (i : nat) : outcome StepVector :=
  match aliasGet (Histograms s) h0 i, args with
  | Some h, Some a =>
      let '(v, ok) := call zero (Some h) a in
      match sget (HistogramIDs s) i with
      | Some sampleID =>
          match RemoveHistogram s i with
          | Some s' => Ok (if ok then AppendSample s' sampleID v else s')
          | None => Panic
          end
      | None => Panic
      end
  | _, _ => Panic
  end.

(** [for i < len(vectors[batchIndex].Histograms) { ... }] *)
Equations histogramLoop (call : functionCall) (args : option (list float64))
    (h0 : nat) (s : StepVector) (i : nat) : outcome StepVector
    by wf (len (Histograms s) - i) lt :=
  histogramLoop call args h0 s i with decide (i < len (Histograms s)) := {
    | right _ => Ok s
    | left Hi with inspect (histogramStep call args h0 s i) := {
        | exist _ (Ok s') Heq => histogramLoop call args h0 s' i
        | exist _ (Err e) _ => Err e
        | exist _ Panic _ => Panic } }.
Next Obligation.
  revert Heq. unfold histogramStep, RemoveHistogram, sremove. intros H.
  destruct (aliasGet _ _ _); [|done]. destruct args; [|done].
  destruct (call _ _ _) as [v ok]. destruct (sget _ _); [|done].
  repeat case_decide; try done.
  inversion H; subst. destruct ok; simpl; lia.
Qed.

(** The body of [for batchIndex, vector := range vectors]: both loops on one
    step. The copy [vector] is taken before the first loop. *)
Definition applyStep (call : functionCall) (args : option (list float64))
    (s : StepVector) : outcome StepVector :=
  match sampleLoop call args (len (Samples s)) s 0 with
  | Ok s1 => histogramLoop call args (len (Histograms s)) s1 0
  | Err e => Err e
  | Panic => Panic
  end.

(** [for batchIndex, vector := range vectors], from [batchIndex] on. *)
Fixpoint applyBatch (call : functionCall) (scalarPoints : list (list float64))
    (batchIndex : nat) (vectors : list StepVector) : outcome (list StepVector) :=
  match vectors with
  | [] => Ok []
  | s :: rest =>
      match applyStep call (scalarPoints !! batchIndex) s with
      | Ok s' =>
          match applyBatch call scalarPoints (S batchIndex) rest with
          | Ok rest' => Ok (s' :: rest')
          | Err e => Err e
          | Panic => Panic
          end
      | Err e => Err e
      | Panic => Panic
      end
  end.

(** *** What the per-step loops compute

    The step vectors the operators exchange keep values and IDs in step:
    every slice is within its capacity, and IDs and values have the same
    length. *)
Definition wfStep (s : StepVector) : Prop :=
  swf (SampleIDs s) ∧ swf (Samples s) ∧ swf (HistogramIDs s)
  ∧ swf (Histograms s) ∧ len (SampleIDs s) = len (Samples s)
  ∧ len (HistogramIDs s) = len (Histograms s).

(** The function applied to one scalar sample: the sample with its value
    replaced when the result is valid, nothing otherwise. *)
Definition keepSample (call : functionCall) (args : list float64)
    (p : N * float64) : option (N * float64) :=
  let '(v, ok) := call p.2 None args in if ok then Some (p.1, v) else None.

(** The function applied to one histogram sample: a scalar sample with the
    histogram's ID when the result is valid, nothing otherwise. *)
Definition keepHistogram (call : functionCall) (args : list float64)
    (p : N * FloatHistogram) : option (N * float64) :=
  let '(v, ok) := call zero (Some p.2) args in
  if ok then Some (p.1, v) else None.

(** Whether the function's result is valid on a scalar sample, on a
    histogram sample. *)
Definition validSample (call : functionCall) (args : list float64)
    (p : N * float64) : bool := (call p.2 None args).2.
Definition validHistogram (call : functionCall) (args : list float64)
    (p : N * FloatHistogram) : bool := (call zero (Some p.2) args).2.

(** What [Next] leaves of one step, given the scalar inputs of the step:
    the scalar samples with a valid result, then one scalar sample for each
    histogram sample with a valid result. *)
Definition stepResult (call : functionCall) (args : list float64)
    (s : StepVector) : list (N * float64) :=
  omap (keepSample call args) (samplesOf s)
  ++ omap (keepHistogram call args) (histogramsOf s).

(** *** Child operators and the operator's state *)

(** A child behind the [model.VectorOperator] interface: what its [Series]
    returns, and what its successive [Next] calls return. Once the list is
    used up the child is exhausted and returns an empty batch. *)
Record child := mkChild {
  childSeries : outcome (list Labels);
  childNexts : list (outcome (list StepVector))
}.

(** Calls made on children, in order: the index in [nextOps] is recorded. *)
Inductive event := EvSeries (i : nat) | EvNext (i : nat).

#[global] Instance event_eq_dec : EqDecision event.
Proof. solve_decision. Defined.

Inductive ValueType :=
| ValueTypeNone | ValueTypeVector | ValueTypeScalar | ValueTypeMatrix
| ValueTypeString.

#[global] Instance ValueType_eq_dec : EqDecision ValueType.
Proof. solve_decision. Defined.

(** [parser.Call], as far as the operators read it: the function's name, the
    value type of each argument, and the textual form of the call. *)
Record Call := mkCall {
  FuncName : string;
  Args : list ValueType;
  callString : string
}.

Record functionOperator := mkFunctionOperator {
  funcExpr : Call;
  series : list Labels;
  once : bool; (* whether [once.Do] has run *)
  vectorIndex : nat;
  call : functionCall;
  scalarPoints : list (list float64)
}.

(** The operator with its children and the log of calls made on them. *)
Record state := mkState {
  op : functionOperator;
  nextOps : list child;
  trace : list event
}.

Definition setSeries (o : functionOperator) (ss : list Labels) : functionOperator :=
  mkFunctionOperator (funcExpr o) ss (once o) (vectorIndex o) (call o)
                     (scalarPoints o).
Definition setOnce (o : functionOperator) : functionOperator :=
  mkFunctionOperator (funcExpr o) (series o) true (vectorIndex o) (call o)
                     (scalarPoints o).
Definition setScalarPoints (o : functionOperator) (sp : list (list float64))
    : functionOperator :=
  mkFunctionOperator (funcExpr o) (series o) (once o) (vectorIndex o) (call o) sp.

Definition withOp (st : state) (o : functionOperator) : state :=
  mkState o (nextOps st) (trace st).
Definition logEvent (st : state) (e : event) : state :=
  mkState (op st) (nextOps st) (trace st ++ [e]).

(** Stateful calls: a result and the state left behind. *)
Definition M (A : Type) : Type := state → outcome A * state.

Definition ret {A} (a : A) : M A := λ st, (Ok a, st).
Definition fail {A} (e : error) : M A := λ st, (Err e, st).
Definition panic {A} : M A := λ st, (Panic, st).
Definition bind {A B} (m : M A) (k : A → M B) : M B :=
  λ st, match m st with
        | (Ok a, st') => k a st'
        | (Err e, st') => (Err e, st')
        | (Panic, st') => (Panic, st')
        end.
Definition lift {A} (r : outcome A) : M A := λ st, (r, st).

Notation "x <- m ;; k" := (bind m (λ x, k))
  (at level 100, m at next level, right associativity).

(** [o.nextOps[i].Series(ctx)] *)
Definition callSeries (i : nat) : M (list Labels) :=
  λ st, match nextOps st !! i with
        | None => (Panic, st)
        | Some c => (childSeries c, logEvent st (EvSeries i))
        end.

(** [o.nextOps[i].Next(ctx)] *)
Definition callNext (i : nat) : M (list StepVector) :=
  λ st, match nextOps st !! i with
        | None => (Panic, st)
        | Some c =>
            match childNexts c with
            | [] => (Ok [], logEvent st (EvNext i))
            | r :: rest =>
                (r, mkState (op st)
                            (<[i := mkChild (childSeries c) rest]> (nextOps st))
                            (trace st ++ [EvNext i]))
            end
        end.

(** [loadSeries]: the closure runs under [once.Do], so only on the first
    call; [err] is a local of the call and is nil whenever the closure does
    not run. *)
Definition loadSeries : M unit :=
  λ st,
    if once (op st) then (Ok tt, st)
    else if String.eqb (FuncName (funcExpr (op st))) "vector" then
      (Ok tt, withOp st (setOnce (setSeries (op st) [[]])))
    else
      match callSeries (vectorIndex (op st)) st with
      | (Ok ss, st') =>
          (Ok tt, withOp st' (setOnce (setSeries (op st')
                                 (map (λ s, (DropMetricName s).1) ss))))
      | (Err loadErr, st') => (Err loadErr, withOp st' (setOnce (op st')))
      (* [once.Do] counts a call that panics as done *)
      | (Panic, st') => (Panic, withOp st' (setOnce (op st')))
      end.

Definition Series : M (list Labels) :=
  _ <- loadSeries ;;
  λ st, (Ok (series (op st)), st).

(** The value read from a scalar argument's batch for one step. *)
Definition scalarValue (scalarVectors : list StepVector) (batchIndex : nat)
    : outcome float64 :=
  if decide (0 < length scalarVectors) then
    match scalarVectors !! batchIndex with
    | None => Panic
    | Some sv =>
        if decide (0 < len (Samples sv)) then
          match sget (Samples sv) 0 with
          | Some x => Ok x
          | None => Panic
          end
        else Ok NaN
    end
  else Ok NaN.

(** [o.scalarPoints[batchIndex][scalarIndex] = val] *)
Definition setScalarPoint (sp : list (list float64))
    (batchIndex scalarIndex : nat) (val : float64)
    : outcome (list (list float64)) :=
  match sp !! batchIndex with
  | None => Panic
  | Some row =>
      if decide (scalarIndex < length row) then
        Ok (<[batchIndex := <[scalarIndex := val]> row]> sp)
      else Panic
  end.

(** [for batchIndex := range vectors], for one scalar argument. *)
Fixpoint fillScalarPoints (scalarVectors : list StepVector) (scalarIndex : nat)
    (batchIndices : list nat) (sp : list (list float64))
    : outcome (list (list float64)) :=
  match batchIndices with
  | [] => Ok sp
  | batchIndex :: rest =>
      match scalarValue scalarVectors batchIndex with
      | Ok val =>
          match setScalarPoint sp batchIndex scalarIndex val with
          | Ok sp' => fillScalarPoints scalarVectors scalarIndex rest sp'
          | Err e => Err e
          | Panic => Panic
          end
      | Err e => Err e
      | Panic => Panic
      end
  end.

(** [for i := range o.nextOps], over the indices still to visit. *)
Fixpoint pullScalars (indices : list nat) (scalarIndex : nat) (steps : nat)
    : M unit :=
  match indices with
  | [] => ret tt
  | i :: rest =>
      λ st,
        if decide (i = vectorIndex (op st)) then
          pullScalars rest scalarIndex steps st
        else
          (scalarVectors <- callNext i ;;
           λ st1,
             match fillScalarPoints scalarVectors scalarIndex (seq 0 steps)
                                    (scalarPoints (op st1)) with
             | Ok sp =>
                 pullScalars rest (S scalarIndex) steps
                             (withOp st1 (setScalarPoints (op st1) sp))
             | Err e => (Err e, st1)
             | Panic => (Panic, st1)
             end) st
  end.

(** [Next]. [ctxErr] is [ctx.Err()] when the context is done. *)
Definition Next (ctxErr : option error) : M (list StepVector) :=
  match ctxErr with
  | Some e => fail e
  | None =>
      _ <- loadSeries ;;
      λ st,
        (vectors <- callNext (vectorIndex (op st)) ;;
         match vectors with
         | [] => ret []
         | _ =>
             λ st1,
               (_ <- pullScalars (seq 0 (length (nextOps st1))) 0
                                 (length vectors) ;;
                λ st2,
                  (applyBatch (call (op st2)) (scalarPoints (op st2)) 0 vectors,
                   st2)) st1
         end) st
  end.

(** *** What the scalar arguments contribute

    What the next [Next] call on a child returns. *)
Definition nextResult (c : child) : outcome (list StepVector) :=
  match childNexts c with
  | [] => Ok []
  | r :: _ => r
  end.

(** The value of a scalar argument's batch at a step: its first sample, or
    not-a-number when the batch has no sample for the step. *)
Definition scalarAt (scalarVectors : list StepVector) (batchIndex : nat)
    : float64 :=
  match scalarVectors !! batchIndex with
  | Some sv =>
      match elems (Samples sv) with
      | x :: _ => x
      | [] => NaN
      end
  | None => NaN
  end.

(** The batches the children at [indices] return next, in that order, the
    vector argument at [vi] left out. *)
Definition scalarBatches (cs : list child) (vi : nat) (indices : list nat)
    : list (list StepVector) :=
  omap (λ i, if decide (i = vi) then None
             else match cs !! i with
                  | Some c =>
                      match nextResult c with
                      | Ok svs => Some svs
                      | _ => None
                      end
                  | None => None
                  end) indices.

(** The scalar inputs of step [batchIndex]: one value for each scalar
    argument, in argument order. *)
Definition scalarInputs (cs : list child) (vi : nat) (batchIndex : nat)
    : list float64 :=
  (λ svs, scalarAt svs batchIndex) <$> scalarBatches cs vi (seq 0 (length cs)).


(** A scalar argument's batch fits a vector batch of [steps] steps when it is
    empty or covers every step, with well-formed sample slices. *)
Definition scalarReady (steps : nat) (scalarVectors : list StepVector) : Prop :=
  scalarVectors = []
  ∨ (steps ≤ length scalarVectors
     ∧ Forall (λ sv, swf (Samples sv)) scalarVectors).

(** A row of [scalarPoints] with the entries from [k] on overwritten. *)
Definition overwriteRow (row : list float64) (k : nat) (vals : list float64)
    : list float64 :=
  take k row ++ vals ++ drop (k + length vals) row.

(** The series array can be had without a failure: it was loaded before,
    or the function is [vector], or the vector argument's [Series] succeeds. *)
Definition seriesLoads (st : state) : Prop :=
  once (op st) = true
  ∨ FuncName (funcExpr (op st)) = "vector"
  ∨ ∃ c ss, nextOps st !! vectorIndex (op st) = Some c
            ∧ childSeries c = Ok ss.

(** A state in which [Next] gets the batch [vectors] from the vector
    argument and can process it: the series array loads, the batch is not
    empty and its steps are well formed, [scalarPoints] has the shape the
    constructor gives it (a row for each step, an entry for each scalar
    argument), and the batch each scalar argument returns fits. *)
Definition nextReady (st : state) (vectors : list StepVector) : Prop :=
  seriesLoads st
  ∧ (∃ c, nextOps st !! vectorIndex (op st) = Some c
          ∧ nextResult c = Ok vectors)
  ∧ vectors ≠ []
  ∧ Forall wfStep vectors
  ∧ length vectors ≤ length (scalarPoints (op st))
  ∧ Forall (λ row, length row = length (nextOps st) - 1)
           (scalarPoints (op st))
  ∧ ∀ i c, i ≠ vectorIndex (op st) → nextOps st !! i = Some c →
      ∃ svs, nextResult c = Ok svs ∧ scalarReady (length vectors) svs.

(** The children pulled by a call, in order, read off the log. *)
Definition pulls (events : list event) : list nat :=
  omap (λ e, match e with EvNext i => Some i | EvSeries _ => None end) events.

(** The number of [Series] calls made on children, read off the log. *)
Definition isSeriesCall (e : event) : bool :=
  match e with EvSeries _ => true | EvNext _ => false end.

Definition seriesCalls (events : list event) : nat :=
  length (filter (λ e, isSeriesCall e = true) events).

(** A call keeps the series when it leaves the stored array and the
    [once] flag as they are and makes no [Series] call on a child. *)
Definition keepsSeries (st st' : state) : Prop :=
  series (op st') = series (op st)
  ∧ once (op st') = once (op st)
  ∧ seriesCalls (trace st') = seriesCalls (trace st).

(** A call keeps the operator's shape when it leaves the function, the
    vector index, the number of children, and the number and the lengths of
    the rows of [scalarPoints] as they are. *)
Definition keepsShape (st st' : state) : Prop :=
  funcExpr (op st') = funcExpr (op st)
  ∧ vectorIndex (op st') = vectorIndex (op st)
  ∧ call (op st') = call (op st)
  ∧ length (nextOps st') = length (nextOps st)
  ∧ length <$> scalarPoints (op st') = length <$> scalarPoints (op st).

(** A call keeps what the load of the series reads when it leaves the
    function, the vector index and what the [Series] of each child returns
    as they are. *)
Definition sameLoad (st st' : state) : Prop :=
  funcExpr (op st') = funcExpr (op st)
  ∧ vectorIndex (op st') = vectorIndex (op st)
  ∧ childSeries <$> nextOps st' = childSeries <$> nextOps st.

(** The calls a consumer makes on the operator, and the state they leave
    when made in sequence (results dropped). *)
Inductive apiCall := CallSeries | CallNext (ctxErr : option error).

Definition runCall (st : state) (c : apiCall) : state :=
  match c with
  | CallSeries => (Series st).2
  | CallNext ctxErr => (Next ctxErr st).2
  end.

Definition runCalls (calls : list apiCall) (st : state) : state :=
  foldl runCall st calls.

(** *** Constructors *)

(** [time.Duration]: a signed count of nanoseconds. [Milliseconds] is the
    integer division by 1e6, which in Go truncates toward zero. *)
Definition Duration := Z.
Definition Milliseconds (d : Duration) : Z := Z.quot d 1000000.

(** [query.Options], the fields read here. *)
Record Options := mkOptions { Start : Time; End : Time; Step : Duration }.

Definition noArgFunctionCall : Type := Z → float64.

(** The dispatch tables of the function bodies, which live in another file
    of the package. *)
Class Builtins := {
  noArgFuncs : gmap string noArgFunctionCall;
  instantVectorFuncs : gmap string functionCall
}.

Context {builtins : Builtins} {machine : Machine}.

(** Modelled from the spec: [parse.UnknownFunctionError] and
    [parse.ErrNotImplemented] belong to the [parse] package: the "unknown
    function" error for a name, and the "not implemented" error. *)
Definition UnknownFunctionError (name : string) : error :=
  "unknown function: " +:+ name.
Definition ErrNotImplemented : error := "expression not implemented".

Record noArgFunctionOperator := mkNoArgFunctionOperator {
  currentStep : Z;
  mint : Z;
  maxt : Z;
  step : Z;
  stepsBatch : Z;
  naFuncExpr : Call;
  naCall : noArgFunctionCall;
  naSeries : option (list Labels); (* [None] is the nil slice *)
  sampleIDs : list N
}.

(** What [NewFunctionOperator] returns: one of the operators of the family.
    Pools are recorded by the sizes they are created with. *)
Inductive VectorOperator :=
| scalarFunctionOperator (next : child) (poolStepsBatch poolSize : Z)
| relabelFunctionOperator (next : child) (fe : Call)
| absentOperator (next : child) (poolStepsBatch : Z) (fe : Call)
| histogramOperator (poolStepsBatch : Z) (funcArgs : list ValueType)
                    (scalarOp vectorOp : child) (points : list float64)
| noArgOperator (o : noArgFunctionOperator)
| instantVectorOperator (o : functionOperator) (ops : list child).

Definition newNoArgsFunctionOperator (fe : Call) (batch : Z) (opts : Options)
    : outcome VectorOperator :=
  match noArgFuncs !! FuncName fe with
  | None => Err (UnknownFunctionError (FuncName fe))
  | Some c =>
      let interval := Milliseconds (Step opts) in
      (* We set interval to be at least 1. *)
      let interval := if Z.eqb interval 0 then 1%Z else interval in
      let o := mkNoArgFunctionOperator
                 (UnixMilli (Start opts)) (UnixMilli (Start opts))
                 (UnixMilli (End opts)) interval batch fe c in
      if String.eqb (FuncName fe) "pi" || String.eqb (FuncName fe) "time"
      then Ok (noArgOperator (o None [0%N]))
      else Ok (noArgOperator (o (Some [[]]) [0%N]))
  end.

(** The loop setting [f.vectorIndex]: the index of the first argument typed
    as an instant vector, searched from position [i]. *)
Fixpoint findVectorArg (args : list ValueType) (i : nat) : option nat :=
  match args with
  | [] => None
  | a :: rest =>
      if decide (a = ValueTypeVector) then Some i
      else findVectorArg rest (S i)
  end.

Definition newInstantVectorFunctionOperator (fe : Call) (ops : list child)
    (batch : Z) (opts : Options) : outcome VectorOperator :=
  match instantVectorFuncs !! FuncName fe with
  | None => Err (UnknownFunctionError (FuncName fe))
  | Some c =>
      (* a row of [scalarPoints] is a slice header, three words;
         a [float64] has eight bytes *)
      if negb (makesliceOk (3 * wordSize) batch) then Panic
      else if (0 <? batch)%Z
              && negb (makesliceOk 8 (Z.of_nat (length ops) - 1)) then Panic
      else
        let points := replicate (Z.to_nat batch)
                                (replicate (length ops - 1) zero) in
        let vi := default 0 (findVectorArg (Args fe) 0) in
        match Args fe !! vi with
        | None => Panic
        | Some ValueTypeVector | Some ValueTypeScalar =>
            Ok (instantVectorOperator
                  (mkFunctionOperator fe [] false vi c points) ops)
        | Some _ =>
            Err ("got " +:+ callString fe +:+ ":: " +:+ ErrNotImplemented)
        end
  end.

Definition NewFunctionOperator (fe : Call) (ops : list child) (batch : Z)
    (opts : Options) : outcome VectorOperator :=
  let name := FuncName fe in
  (* Some functions need to be handled in special operators *)
  if String.eqb name "scalar" then
    match ops !! 0 with
    | Some next => Ok (scalarFunctionOperator next batch 1)
    | None => Panic
    end
  else if String.eqb name "label_join" || String.eqb name "label_replace" then
    match ops !! 0 with
    | Some next => Ok (relabelFunctionOperator next fe)
    | None => Panic
    end
  else if String.eqb name "absent" then
    match ops !! 0 with
    | Some next => Ok (absentOperator next batch fe)
    | None => Panic
    end
  else if String.eqb name "histogram_quantile" then
    match ops !! 0, ops !! 1 with
    | Some scalarOp, Some vectorOp =>
        if makesliceOk 8 batch
        then Ok (histogramOperator batch (Args fe) scalarOp vectorOp
                                   (replicate (Z.to_nat batch) zero))
        else Panic
    | _, _ => Panic
    end
  (* Short-circuit functions that take no args. *)
  else if Nat.eqb (length ops) 0 then newNoArgsFunctionOperator fe batch opts
  (* All remaining functions *)
  else newInstantVectorFunctionOperator fe ops batch opts.

(** The names [NewFunctionOperator] hands to special operators. *)
Definition specialNames : list string :=
  ["scalar"; "label_join"; "label_replace"; "absent"; "histogram_quantile"].

(** The special operator built for a name, if the operator is one. *)
Definition specialOperatorName (o : VectorOperator) : list string :=
  match o with
  | scalarFunctionOperator _ _ _ => ["scalar"]
  | relabelFunctionOperator _ _ => ["label_join"; "label_replace"]
  | absentOperator _ _ _ => ["absent"]
  | histogramOperator _ _ _ _ _ => ["histogram_quantile"]
  | noArgOperator _ => []
  | instantVectorOperator _ _ => []
  end.

End Operator.

(** *** A platform to run the model on

    A 64-bit machine. Floats are integers with one more value for not-a-number, histograms are
    lists of bucket counts, times are millisecond counts. *)

#[global] Instance testMachine : Machine := {|
  wordSize := 8;
  maxAlloc := 2 ^ 48
|}.

#[global] Instance testPlatform : Platform := {|
  float64 := option Z;
  NaN := None;
  zero := Some 0%Z;
  FloatHistogram := list Z;
  Time := Z;
  UnixMilli := λ t, t
|}.

(** A function body to run the loops with: a scalar sample is valid when it
    is an even number, and its result adds one and the scalar inputs that are
    numbers; a histogram is valid when it has a bucket, and its result is the
    sum of its buckets. *)
Definition testCall : functionCall :=
  λ x h args,
    let extra := foldr (λ a acc, (default 0 a + acc)%Z) 0%Z args in
    match h with
    | Some buckets =>
        (Some (foldr Z.add 0%Z buckets + extra)%Z,
         negb (Nat.eqb (length buckets) 0))
    | None =>
        match x with
        | Some z => (Some (z + 1 + extra)%Z, Z.even z)
        | None => (None, false)
        end
    end.

#[global] Instance testBuiltins : Builtins := {|
  noArgFuncs := {[ "time" := λ t, Some (t / 1000)%Z ]};
  instantVectorFuncs := {[ "abs" := testCall; "vector" := testCall ]}
|}.

Definition testStep (t : Z) (samples : list (N * float64))
    (histograms : list (N * FloatHistogram)) : StepVector :=
  mkStepVector t (sliceOf samples.*1) (sliceOf samples.*2)
               (sliceOf histograms.*1) (sliceOf histograms.*2).

Definition testOperator (name : string) (argTypes : list ValueType)
    (vi : nat) (rows width : nat) : functionOperator :=
  mkFunctionOperator (mkCall name argTypes name) [] false vi testCall
                     (replicate rows (replicate width zero)).

(** A call [abs(10, v)] ready for [Next]: a scalar argument with a sample
    for the first step only, and a vector argument with two steps, the first
    with four scalar samples and three histogram samples. *)
Definition testVectors : list StepVector :=
  [testStep 0 [(0%N, Some 2%Z); (1%N, Some 3%Z); (2%N, Some 4%Z); (3%N, None)]
              [(7%N, [1%Z; 2%Z]); (8%N, []); (9%N, [5%Z])];
   testStep 1000 [(0%N, Some 1%Z)] []].

Definition testScalars : list StepVector :=
  [testStep 0 [(0%N, Some 10%Z)] []; testStep 1000 [] []].

Definition testSeries : list Labels :=
  [[mkLabel "__name__" "up"; mkLabel "job" "a"]; []].

Definition testState : state :=
  mkState (testOperator "abs" [ValueTypeScalar; ValueTypeVector] 1 2 1)
          [mkChild (Ok []) [Ok testScalars];
           mkChild (Ok testSeries) [Ok testVectors]]
          [].

(** A call [abs(v)] on a batch of one step that holds one histogram sample
    and no scalar sample. *)
Definition histogramOnlyStep : StepVector := testStep 0 [] [(7%N, [5%Z])].

Definition histogramOnlyState : state :=
  mkState (testOperator "abs" [ValueTypeVector] 0 1 0)
          [mkChild (Ok [[]]) [Ok [histogramOnlyStep]]]
          [].

(** A call [abs(10, v)] whose scalar argument returns a batch of one step
    while the vector argument returns two, and one whose scalar argument
    fails. *)
Definition shortScalarState : state :=
  mkState (testOperator "abs" [ValueTypeScalar; ValueTypeVector] 1 2 1)
          [mkChild (Ok []) [Ok [testStep 0 [(0%N, Some 10%Z)] []]];
           mkChild (Ok testSeries) [Ok testVectors]]
          [].

Definition failingScalarState : state :=
  mkState (testOperator "abs" [ValueTypeScalar; ValueTypeVector] 1 2 1)
          [mkChild (Ok []) [Err "scalar failed"];
           mkChild (Ok testSeries) [Ok testVectors]]
          [].

(** Query options from a start and an end in milliseconds and a step in
    nanoseconds. *)
Definition testOptions (start finish : Z) (d : Duration)
    : @Options testPlatform :=
  mkOptions start finish d.

(** A call [abs(v)] whose vector argument fails to give its series. *)
Definition failingSeriesState : state :=
  mkState (testOperator "abs" [ValueTypeVector] 0 1 0)
          [mkChild (Err "series failed") [Ok [histogramOnlyStep]]]
          [].

End function.

(** * Properties of the execution plan builder *)

Section BuilderProperties.

Import executionplan.

Context {env : Collaborators}.

Implicit Types (e inner : Expr) (storage : Storage) (mint maxt step : Z).

(** Every expression kind without a case of its own in the type switch
    falls to the default case. *)
Lemma newOperator_default e storage mint maxt step :
  isAggregateExpr e = false → isVectorSelector e = false → isCall e = false →
  newOperator e storage mint maxt step = Err (unsupported e).
Proof. by destruct e. Qed.

(** A call with a first argument that is not a matrix selector is refused. *)
Lemma newOperator_call_other f a rest storage mint maxt step :
  isMatrixSelector a = false →
  newOperator (Call f (a :: rest)) storage mint maxt step
  = Err (unsupported (Call f (a :: rest))).
Proof. by destruct a. Qed.

(** C5, as amended: for an aggregation expression whose inner expression
    builds and whose aggregation operator is accepted, the builder constructs
    the aggregate operator over the inner operator with the aggregation
    operator name and the grouping labels unchanged, and with its flag set
    to true exactly when the expression has no "without" clause (it groups by
    inclusion); the result is wrapped by the concurrency decorator. *)
Theorem newOperator_aggregate_flag
    Op inner Param Grouping Without storage mint maxt step next :
  newOperator inner storage mint maxt step = Ok next →
  aggregationError Op = None →
  newOperator (AggregateExpr Op inner Param Grouping Without)
              storage mint maxt step
  = Ok (concurrent (aggregate next Op (negb Without) Grouping))
  ∧ (∀ r, newOperator (AggregateExpr Op inner Param Grouping Without)
                      storage mint maxt step = Ok r →
          (rootAggregateFlag r = Some true ↔ Without = false)).
Proof.
  intros Hinner Hop. simpl. rewrite Hinner. unfold NewAggregate.
  rewrite Hop. split; [done|].
  intros r [= <-]. simpl. destruct Without; naive_solver.
Qed.

(** C7, at the failing input: a call expression without arguments, such as
    [time()], is not an aggregation, not a selector and not a call on a
    matrix selector, yet the builder does not return the unsupported
    expression error: it indexes the first argument and panics. *)
Theorem newOperator_call_without_arguments f storage mint maxt step :
  isCallOnMatrixSelector (Call f []) = false
  ∧ newOperator (Call f []) storage mint maxt step = Panic
  ∧ newOperator (Call f []) storage mint maxt step
    ≠ Err (unsupported (Call f [])).
Proof. done. Qed.

(** C9, as amended: a call whose first argument is a matrix selector over a
    vector selector, whatever arguments follow it, builds the matrix selector
    operator with the selector's range and the vector selector's matchers,
    wrapped by the concurrency decorator; a call whose first argument is
    anything else yields the unsupported expression error. *)
Theorem newOperator_call f a rest storage mint maxt step :
  (∀ name matchers range,
     a = MatrixSelector (VectorSelector name matchers) range →
     newOperator (Call f (a :: rest)) storage mint maxt step
     = Ok (concurrent (NewMatrixSelector storage matchers mint maxt step range)))
  ∧ (isMatrixSelector a = false →
     newOperator (Call f (a :: rest)) storage mint maxt step
     = Err (unsupported (Call f (a :: rest)))).
Proof.
  split.
  - by intros name matchers range ->.
  - apply newOperator_call_other.
Qed.

End BuilderProperties.

Section BuilderExamples.

Import executionplan.

Local Open Scope Z_scope.

(** Witness of [newOperator_aggregate_flag]: [sum without (job) (up)]. *)
Lemma newOperator_aggregate_flag_witness :
  newOperator (AggregateExpr 1 (VectorSelector "up" []) None ["job"] true)
              testStorage 0 10 1
  = Ok (concurrent (aggregate (concurrent (NewVectorSelector testStorage [] 0 10 1))
                              1 false ["job"])).
Proof.
  apply (newOperator_aggregate_flag (env := testCollaborators)
           1%Z (VectorSelector "up" []) None ["job"] true testStorage 0%Z 10%Z 1%Z
           (concurrent (NewVectorSelector testStorage [] 0 10 1))); reflexivity.
Defined.

(** C5 as stated fails: [sum without (job) (up)] groups by exclusion, and the
    aggregate operator is built with the flag false. *)
Lemma aggregate_flag_counterexample :
  ∃ r, newOperator (AggregateExpr 1 (VectorSelector "up" []) None ["job"] true)
                   testStorage 0 10 1 = Ok r
       ∧ rootAggregateFlag r = Some false.
Proof. eexists. split; reflexivity. Qed.

(** C9 as stated fails: [predict_linear(up[5m], 3600)] has two arguments, and
    the builder still builds the matrix selector operator instead of
    returning the unsupported expression error. *)
Lemma call_shape_counterexample :
  newOperator (Call "predict_linear"
                 [MatrixSelector (VectorSelector "up" []) 300000;
                  NumberLiteral 3600]) testStorage 0 10 1
  = Ok (concurrent (NewMatrixSelector testStorage [] 0 10 1 300000))
  ∧ is_Err (newOperator (Call "predict_linear"
                 [MatrixSelector (VectorSelector "up" []) 300000;
                  NumberLiteral 3600]) testStorage 0 10 1) = false.
Proof. split; reflexivity. Qed.

(** Witness of [newOperator_call]: [abs(up)] is refused. *)
Lemma newOperator_call_witness :
  newOperator (Call "abs" [VectorSelector "up" []]) testStorage 0 10 1
  = Err "unsupported expression abs(...)".
Proof.
  apply (newOperator_call (env := testCollaborators)
           "abs" (VectorSelector "up" []) [] testStorage 0%Z 10%Z 1%Z). reflexivity.
Defined.

End BuilderExamples.

(** * Properties of the function operator *)

Section SliceProperties.

Import function.

Context {A : Type}.

Implicit Types (s : slice A) (i : nat).

Lemma elems_length s : swf s → length (elems s) = len s.
Proof. unfold swf, elems. intros. by rewrite length_take_le. Qed.

Lemma sliceOf_wf (l : list A) : swf (sliceOf l).
Proof. unfold swf. simpl. lia. Qed.

Lemma sliceOf_elems (l : list A) : elems (sliceOf l) = l.
Proof. unfold elems. simpl. by rewrite take_ge. Qed.

Lemma sget_elems s i : sget s i = elems s !! i.
Proof.
  unfold sget, elems. case_decide.
  - by rewrite lookup_take_lt.
  - rewrite lookup_take_ge; [done|lia].
Qed.

(** Reading through a copy of the slice header taken when the slice was
    longer gives the current element, within the current length. *)
Lemma aliasGet_elems s n0 i :
  i < len s → len s ≤ n0 → aliasGet s n0 i = elems s !! i.
Proof.
  intros. unfold aliasGet, sget, elems. simpl.
  rewrite decide_True by lia. by rewrite lookup_take_lt.
Qed.

(** In-place removal is the removal of the element from the denoted list. *)
Lemma sremove_elems s i :
  swf s → i < len s →
  ∃ s', sremove s i = Some s' ∧ swf s' ∧ len s' = len s - 1
        ∧ elems s' = delete i (elems s).
Proof.
  unfold swf, sremove, elems. intros Hwf Hi. rewrite decide_True by done.
  eexists. split; [done|]. simpl.
  assert (length (take i (arr s) ++ take (len s - S i) (drop (S i) (arr s)))
          = len s - 1) as Hlen.
  { rewrite length_app, !length_take, length_drop. lia. }
  split_and!.
  - rewrite app_assoc, length_app, Hlen. lia.
  - done.
  - rewrite app_assoc, take_app_length' by done.
    rewrite delete_take_drop, take_take, Nat.min_l by lia.
    rewrite take_drop_commute. do 3 f_equal. lia.
Qed.

Lemma sremove_None s i : len s ≤ i → sremove s i = None.
Proof. intros. unfold sremove. by rewrite decide_False by lia. Qed.

Lemma sset_elems s i (v : A) :
  i < len s →
  elems (mkSlice (<[i := v]> (arr s)) (len s)) = <[i := v]> (elems s).
Proof. intros. unfold elems. simpl. by rewrite take_insert_lt. Qed.

Lemma sappend_elems s (x : A) :
  swf s → swf (sappend s x) ∧ len (sappend s x) = S (len s)
          ∧ elems (sappend s x) = elems s ++ [x].
Proof.
  unfold swf, sappend, elems. intros Hwf. case_decide; simpl.
  - rewrite length_insert. split_and!; [lia|done|].
    rewrite (take_S_r _ _ x) by (by apply list_lookup_insert_eq).
    by rewrite take_insert_ge.
  - rewrite length_app, length_take. simpl. split_and!; [lia|done|].
    rewrite take_ge; [done|]. rewrite length_app, length_take. simpl. lia.
Qed.

End SliceProperties.

Section ZipProperties.

Context {A B : Type}.

Lemma zip_delete (a : list A) (b : list B) i :
  delete i (zip a b) = zip (delete i a) (delete i b).
Proof.
  revert a b. induction i as [|i IH]; intros [|x a] [|y b]; simpl; try done.
  all: try (by destruct a).
  all: try (unfold zip; by rewrite zip_with_nil_r).
  f_equal. apply IH.
Qed.

Lemma zip_insert_r (a : list A) (b : list B) i x (v : B) :
  a !! i = Some x → zip a (<[i := v]> b) = <[i := (x, v)]> (zip a b).
Proof.
  intros Ha. rewrite (insert_zip_with pair a b i x v).
  by rewrite (list_insert_id a i x).
Qed.

Lemma zip_snoc (a : list A) (b : list B) x y :
  length a = length b → zip (a ++ [x]) (b ++ [y]) = zip a b ++ [(x, y)].
Proof. intros. by rewrite (zip_with_app pair a [x] b [y]). Qed.

End ZipProperties.

Section LoopProperties.

Import function.

Context {platform : Platform}.

Implicit Types (s : StepVector) (call : functionCall) (a : list float64).

Lemma sampleLoop_step call args n0 s i :
  sampleLoop call args n0 s i =
  if decide (i < len (Samples s)) then
    match sampleStep call args n0 s i with
    | Ok (s', i') => sampleLoop call args n0 s' i'
    | Err e => Err e
    | Panic => Panic
    end
  else Ok s.
Proof.
  rewrite sampleLoop_equation_1.
  destruct (decide (i < len (Samples s))); simpl; [|done].
  by destruct (sampleStep call args n0 s i) as [[]| |].
Qed.

Lemma histogramLoop_step call args h0 s i :
  histogramLoop call args h0 s i =
  if decide (i < len (Histograms s)) then
    match histogramStep call args h0 s i with
    | Ok s' => histogramLoop call args h0 s' i
    | Err e => Err e
    | Panic => Panic
    end
  else Ok s.
Proof.
  rewrite histogramLoop_equation_1.
  destruct (decide (i < len (Histograms s))); simpl; [|done].
  by destruct (histogramStep call args h0 s i).
Qed.

Lemma samplesOf_length s : wfStep s → length (samplesOf s) = len (Samples s).
Proof.
  intros (?&?&?&?&?&?). unfold samplesOf.
  rewrite length_zip_with, !elems_length by done. lia.
Qed.

Lemma histogramsOf_length s :
  wfStep s → length (histogramsOf s) = len (Histograms s).
Proof.
  intros (?&?&?&?&?&?). unfold histogramsOf.
  rewrite length_zip_with, !elems_length by done. lia.
Qed.

Lemma samplesOf_lookup s i p :
  samplesOf s !! i = Some p →
  elems (SampleIDs s) !! i = Some p.1 ∧ elems (Samples s) !! i = Some p.2.
Proof.
  unfold samplesOf. intros (x&y&->&?&?)%lookup_zip_with_Some. done.
Qed.

(** Overwriting a value in place. *)
Lemma setSample_spec s i p v :
  wfStep s → samplesOf s !! i = Some p →
  wfStep (setSample s i v)
  ∧ samplesOf (setSample s i v) = <[i := (p.1, v)]> (samplesOf s)
  ∧ histogramsOf (setSample s i v) = histogramsOf s
  ∧ T (setSample s i v) = T s
  ∧ len (Samples (setSample s i v)) = len (Samples s)
  ∧ len (Histograms (setSample s i v)) = len (Histograms s).
Proof.
  intros Hwf Hp. pose proof (lookup_lt_Some _ _ _ Hp) as Hi.
  rewrite samplesOf_length in Hi by done.
  destruct (samplesOf_lookup _ _ _ Hp) as [Hid _].
  destruct Hwf as (?&?&?&?&?&?).
  split_and!; try done.
  - unfold wfStep, swf in *. simpl. rewrite length_insert. done.
  - unfold samplesOf. simpl. rewrite sset_elems by done.
    by apply zip_insert_r.
Qed.

(** Removing a sample in place. *)
Lemma RemoveSample_spec s i :
  wfStep s → i < len (Samples s) →
  ∃ s', RemoveSample s i = Some s' ∧ wfStep s'
        ∧ samplesOf s' = delete i (samplesOf s)
        ∧ histogramsOf s' = histogramsOf s ∧ T s' = T s
        ∧ len (Samples s') = len (Samples s) - 1
        ∧ len (Histograms s') = len (Histograms s).
Proof.
  intros (Hi1&Hv1&Hi2&Hv2&He1&He2) Hi. unfold RemoveSample.
  destruct (sremove_elems (Samples s) i) as (vals&->&?&?&Hvals); [done..|].
  destruct (sremove_elems (SampleIDs s) i) as (ids&->&?&?&Hids); [done|lia|].
  eexists. split; [done|]. split_and!; try done.
  - unfold wfStep. simpl. split_and!; try done. lia.
  - unfold samplesOf. simpl. by rewrite Hvals, Hids, zip_delete.
Qed.

(** Removing a histogram in place. *)
Lemma RemoveHistogram_spec s i :
  wfStep s → i < len (Histograms s) →
  ∃ s', RemoveHistogram s i = Some s' ∧ wfStep s'
        ∧ histogramsOf s' = delete i (histogramsOf s)
        ∧ samplesOf s' = samplesOf s ∧ T s' = T s
        ∧ len (Histograms s') = len (Histograms s) - 1.
Proof.
  intros (Hi1&Hv1&Hi2&Hv2&He1&He2) Hi. unfold RemoveHistogram.
  destruct (sremove_elems (Histograms s) i) as (hs&->&?&?&Hhs); [done..|].
  destruct (sremove_elems (HistogramIDs s) i) as (ids&->&?&?&Hids);
    [done|lia|].
  eexists. split; [done|]. split_and!; try done.
  - unfold wfStep. simpl. split_and!; try done. lia.
  - unfold histogramsOf. simpl. by rewrite Hhs, Hids, zip_delete.
Qed.

(** Appending a scalar sample. *)
Lemma AppendSample_spec s id v :
  wfStep s →
  wfStep (AppendSample s id v)
  ∧ samplesOf (AppendSample s id v) = samplesOf s ++ [(id, v)]
  ∧ histogramsOf (AppendSample s id v) = histogramsOf s
  ∧ T (AppendSample s id v) = T s
  ∧ len (Histograms (AppendSample s id v)) = len (Histograms s).
Proof.
  intros (Hi1&Hv1&Hi2&Hv2&He1&He2).
  destruct (sappend_elems (SampleIDs s) id) as (?&?&Hids); [done|].
  destruct (sappend_elems (Samples s) v) as (?&?&Hvals); [done|].
  split_and!; try done.
  - unfold wfStep. simpl. split_and!; try done. lia.
  - unfold samplesOf. simpl. rewrite Hids, Hvals.
    apply zip_snoc. rewrite !elems_length by done. done.
Qed.

Lemma omap_cons_Some {X Y} (f : X → option Y) x y l :
  f x = Some y → omap f (x :: l) = y :: omap f l.
Proof. intros H. csimpl. by rewrite H. Qed.

Lemma omap_cons_None {X Y} (f : X → option Y) x l :
  f x = None → omap f (x :: l) = omap f l.
Proof. intros H. csimpl. by rewrite H. Qed.

(** The loop over the scalar samples, started at index [i] with the copy's
    length [n0] at least the current length, ends, and is a filter-map of
    the samples from [i] on: it is total on well-formed steps. *)
Lemma sampleLoop_spec call a n0 k : ∀ s i,
  len (Samples s) - i = k → wfStep s → i ≤ len (Samples s) →
  len (Samples s) ≤ n0 →
  ∃ s', sampleLoop call (Some a) n0 s i = Ok s' ∧ wfStep s'
        ∧ samplesOf s'
          = take i (samplesOf s) ++ omap (keepSample call a) (drop i (samplesOf s))
        ∧ histogramsOf s' = histogramsOf s ∧ T s' = T s
        ∧ len (Histograms s') = len (Histograms s).
Proof.
  induction k as [k IH] using lt_wf_ind. intros s i Hk Hwf Hi Hn0.
  pose proof (samplesOf_length s Hwf) as Hlen.
  rewrite sampleLoop_step. case_decide as Hlt.
  - destruct (lookup_lt_is_Some_2 (samplesOf s) i) as [p Hp]; [lia|].
    destruct (samplesOf_lookup _ _ _ Hp) as [_ Hval].
    unfold sampleStep. rewrite aliasGet_elems, Hval by done.
    rewrite (drop_S _ p i) by done.
    destruct (call p.2 None a) as [v ok] eqn:Hcall. destruct ok.
    + destruct (setSample_spec s i p v Hwf Hp) as (Hwf1&Hs1&Hh1&HT1&Hl1&Hlh1).
      destruct (IH (len (Samples s) - S i) ltac:(lia) (setSample s i v) (S i))
        as (s'&->&Hwf'&Hs'&Hh'&HT'&Hlh'); [lia|done|lia|lia|].
      exists s'. split; [done|]. split_and!; try congruence.
      rewrite Hs', Hs1.
      rewrite (take_S_r _ _ (p.1, v))
        by (apply list_lookup_insert_eq; lia).
      rewrite take_insert_ge, drop_insert_lt by lia.
      rewrite (omap_cons_Some _ p (p.1, v))
        by (unfold keepSample; by rewrite Hcall).
      by rewrite <- app_assoc.
    + destruct (RemoveSample_spec s i Hwf Hlt)
        as (s1&->&Hwf1&Hs1&Hh1&HT1&Hl1&Hlh1).
      destruct (IH (len (Samples s1) - i) ltac:(lia) s1 i)
        as (s'&->&Hwf'&Hs'&Hh'&HT'&Hlh'); [lia|done|lia|lia|].
      exists s'. split; [done|]. split_and!; try congruence.
      rewrite Hs', Hs1, delete_take_drop.
      rewrite take_app_length', drop_app_length'
        by (rewrite length_take; lia).
      by rewrite omap_cons_None by (unfold keepSample; by rewrite Hcall).
  - exists s. split_and!; try done.
    rewrite take_ge, drop_ge by lia. by rewrite app_nil_r.
Qed.

(** The loop over the histogram samples ends with no histogram left, and
    appends a filter-map of the histograms to the scalar samples. *)
Lemma histogramLoop_spec call a h0 k : ∀ s,
  len (Histograms s) = k → wfStep s → len (Histograms s) ≤ h0 →
  ∃ s', histogramLoop call (Some a) h0 s 0 = Ok s' ∧ wfStep s'
        ∧ samplesOf s'
          = samplesOf s ++ omap (keepHistogram call a) (histogramsOf s)
        ∧ histogramsOf s' = [] ∧ T s' = T s.
Proof.
  induction k as [k IH] using lt_wf_ind. intros s Hk Hwf Hh0.
  pose proof (histogramsOf_length s Hwf) as Hlen.
  rewrite histogramLoop_step. case_decide as Hlt.
  - destruct (lookup_lt_is_Some_2 (histogramsOf s) 0) as [p Hp]; [lia|].
    apply lookup_zip_with_Some in Hp as (id&h&->&Hid&Hh).
    unfold histogramStep.
    rewrite aliasGet_elems, Hh, sget_elems, Hid by done.
    destruct (RemoveHistogram_spec s 0 Hwf Hlt)
      as (s1&->&Hwf1&Hh1&Hs1&HT1&Hl1).
    assert (histogramsOf s = (id, h) :: histogramsOf s1) as Hcons.
    { rewrite Hh1. destruct (histogramsOf s) as [|q l] eqn:Hq; [simpl in *; lia|].
      simpl. f_equal. unfold histogramsOf in Hq.
      destruct (elems (HistogramIDs s)), (elems (Histograms s));
        simplify_eq/=. done. }
    destruct (call zero (Some h) a) as [v ok] eqn:Hcall. destruct ok.
    + destruct (AppendSample_spec s1 id v Hwf1) as (Hwf2&Hs2&Hh2&HT2&Hl2).
      destruct (IH (len (Histograms s1)) ltac:(lia) (AppendSample s1 id v))
        as (s'&->&Hwf'&Hs'&Hh'&HT'); [lia|done|lia|].
      exists s'. split; [done|]. split_and!; try congruence.
      rewrite Hs', Hs2, Hh2, Hs1, Hcons.
      rewrite (omap_cons_Some _ (id, h) (id, v))
        by (unfold keepHistogram; simpl; by rewrite Hcall).
      by rewrite <- app_assoc.
    + destruct (IH (len (Histograms s1)) ltac:(lia) s1)
        as (s'&->&Hwf'&Hs'&Hh'&HT'); [lia|done|lia|].
      exists s'. split; [done|]. split_and!; try congruence.
      rewrite Hs', Hs1, Hcons.
      by rewrite omap_cons_None
        by (unfold keepHistogram; simpl; by rewrite Hcall).
  - exists s. assert (histogramsOf s = []) as ->.
    { apply length_zero_iff_nil. lia. }
    split_and!; try done. by rewrite app_nil_r.
Qed.

(** Both loops on one step: total on well-formed steps, and the result is
    [stepResult]. *)
Lemma applyStep_spec call a s :
  wfStep s →
  ∃ s', applyStep call (Some a) s = Ok s' ∧ wfStep s'
        ∧ samplesOf s' = stepResult call a s
        ∧ histogramsOf s' = [] ∧ T s' = T s.
Proof.
  intros Hwf. unfold applyStep.
  destruct (sampleLoop_spec call a (len (Samples s)) _ s 0 eq_refl)
    as (s1&->&Hwf1&Hs1&Hh1&HT1&Hl1); [done|lia|lia|].
  destruct (histogramLoop_spec call a (len (Histograms s)) _ s1 eq_refl)
    as (s'&->&Hwf'&Hs'&Hh'&HT'); [done|lia|].
  exists s'. split; [done|]. split_and!; try congruence.
  rewrite Hs', Hs1, Hh1. by rewrite take_0, drop_0.
Qed.

(** The loop over the steps of the batch. *)
Lemma applyBatch_spec call sp vectors : ∀ b,
  Forall wfStep vectors → b + length vectors ≤ length sp →
  ∃ out, applyBatch call sp b vectors = Ok out
         ∧ length out = length vectors
         ∧ ∀ k s, vectors !! k = Some s →
             ∃ s' a, out !! k = Some s' ∧ sp !! (b + k) = Some a
                     ∧ wfStep s' ∧ samplesOf s' = stepResult call a s
                     ∧ histogramsOf s' = [] ∧ T s' = T s.
Proof.
  induction vectors as [|s vectors IH]; intros b Hwf Hlen.
  - exists []. split_and!; try done.
  - apply Forall_cons in Hwf as [Hs Hwf]. simpl in *.
    destruct (lookup_lt_is_Some_2 sp b) as [a Ha]; [lia|].
    rewrite Ha.
    destruct (applyStep_spec call a s Hs) as (s'&->&Hwf'&Hs'&Hh'&HT').
    destruct (IH (S b) Hwf) as (out&->&Hout&Hall); [lia|].
    exists (s' :: out). split; [done|]. split; [simpl; lia|].
    intros [|k] s0 Hk; simpl in *.
    + simplify_eq/=. exists s', a. rewrite Nat.add_0_r. done.
    + destruct (Hall k s0 Hk) as (s0'&a0&?&?&?).
      exists s0', a0. replace (b + S k) with (S b + k) by lia. done.
Qed.

End LoopProperties.

Section ScalarProperties.

Import function.

Context {platform : Platform}.

Implicit Types (svs : list StepVector) (sp : list (list float64)).

(** Reading a scalar argument's value for a step never panics on a batch
    that fits, and gives [scalarAt]. *)
Lemma scalarValue_spec steps svs b :
  scalarReady steps svs → b < steps →
  scalarValue svs b = Ok (scalarAt svs b).
Proof.
  intros [->|[Hlen Hwf]] Hb; unfold scalarValue, scalarAt.
  - by rewrite decide_False by (simpl; lia).
  - rewrite decide_True by lia.
    destruct (lookup_lt_is_Some_2 svs b) as [sv Hsv]; [lia|]. rewrite Hsv.
    pose proof (Forall_lookup_1 _ _ _ _ Hwf Hsv) as Hswf. simpl in Hswf.
    pose proof (elems_length _ Hswf) as Hel.
    rewrite sget_elems. case_decide.
    + destruct (elems (Samples sv)); [simpl in *; lia|done].
    + destruct (elems (Samples sv)); [done|simpl in *; lia].
Qed.

(** The loop over the steps for one scalar argument writes column [k] of
    the rows it visits. *)
Lemma fillScalarPoints_spec steps svs k :
  scalarReady steps svs → ∀ bs sp,
  (∀ b, b ∈ bs → b < steps ∧ ∃ row, sp !! b = Some row ∧ k < length row) →
  ∃ sp', fillScalarPoints svs k bs sp = Ok sp'
         ∧ length sp' = length sp
         ∧ ∀ b, sp' !! b = if decide (b ∈ bs)
                           then <[k := scalarAt svs b]> <$> sp !! b
                           else sp !! b.
Proof.
  intros Hready. induction bs as [|b0 bs IH]; intros sp Hrows.
  - exists sp. split_and!; done.
  - destruct (Hrows b0) as (Hb0&row&Hrow&Hk); [left|]. simpl.
    rewrite (scalarValue_spec steps) by done.
    unfold setScalarPoint. rewrite Hrow, decide_True by done.
    set (sp1 := <[b0 := <[k := scalarAt svs b0]> row]> sp).
    assert (∀ b, sp1 !! b = if decide (b = b0)
                            then Some (<[k := scalarAt svs b0]> row)
                            else sp !! b) as Hsp1.
    { intros b. unfold sp1. case_decide as Hb.
      - subst. apply list_lookup_insert_eq. by eapply lookup_lt_Some.
      - by apply list_lookup_insert_ne. }
    destruct (IH sp1) as (sp'&->&Hlen&Hsp').
    { intros b Hb. destruct (Hrows b) as (?&row'&Hrow'&?); [by right|].
      split; [done|]. rewrite Hsp1. case_decide.
      - eexists. split; [done|]. by rewrite length_insert.
      - eauto. }
    exists sp'. split; [done|]. split.
    { rewrite Hlen. unfold sp1. by rewrite length_insert. }
    intros b. rewrite Hsp', Hsp1.
    destruct (decide (b = b0)) as [->|Hne].
    + rewrite (decide_True (P := b0 ∈ b0 :: bs)) by left.
      rewrite Hrow. simpl.
      case_decide; [|done]. simpl. by rewrite list_insert_insert_eq.
    + destruct (decide (b ∈ bs)) as [Hin|Hnin].
      * by rewrite decide_True by (by right).
      * rewrite decide_False; [done|].
        intros [?|?]%elem_of_cons; done.
Qed.

Lemma overwriteRow_step (row : list float64) k v vals :
  k < length row →
  overwriteRow (<[k := v]> row) (S k) vals = overwriteRow row k (v :: vals).
Proof.
  intros Hk. unfold overwriteRow.
  rewrite (take_S_r _ _ v) by (by apply list_lookup_insert_eq).
  rewrite take_insert_ge, drop_insert_lt by lia.
  rewrite <- app_assoc. simpl.
  by replace (k + S (length vals)) with (S (k + length vals)) by lia.
Qed.

Lemma overwriteRow_all (row vals : list float64) :
  length row = length vals → overwriteRow row 0 vals = vals.
Proof.
  intros Hlen. unfold overwriteRow.
  rewrite take_0, drop_ge by (simpl; lia). simpl. by rewrite app_nil_r.
Qed.

(** The batches of the scalar arguments depend only on the children at the
    indices asked for. *)
Lemma scalarBatches_ext (cs cs' : list child) vi indices :
  (∀ i, i ∈ indices → i ≠ vi → cs' !! i = cs !! i) →
  scalarBatches cs' vi indices = scalarBatches cs vi indices.
Proof.
  unfold scalarBatches. induction indices as [|i indices IH]; intros H.
  - done.
  - csimpl. rewrite IH by (intros; apply H; [by right|done]).
    case_decide; [done|]. rewrite H; [done|left|done].
Qed.

Lemma scalarBatches_length (cs : list child) vi steps indices :
  (∀ i, i ∈ indices → i ≠ vi →
     ∃ c svs, cs !! i = Some c ∧ nextResult c = Ok svs
              ∧ scalarReady steps svs) →
  length (scalarBatches cs vi indices)
  = length (filter (λ i, i ≠ vi) indices).
Proof.
  unfold scalarBatches. induction indices as [|i indices IH]; intros H.
  - done.
  - csimpl. rewrite filter_cons.
    assert (length (omap (λ i, if decide (i = vi) then None
                                else match cs !! i with
                                     | Some c =>
                                         match nextResult c with
                                         | Ok svs => Some svs
                                         | _ => None
                                         end
                                     | None => None
                                     end) indices)
            = length (filter (λ i, i ≠ vi) indices)) as IH'.
    { apply IH. intros j Hj. apply H. by right. }
    clear IH.
    case_decide as Hi.
    + rewrite decide_False by naive_solver. done.
    + rewrite decide_True by done.
      destruct (H i) as (c&svs&->&->&_); [left|done|]. simpl. by rewrite IH'.
Qed.

Lemma filter_ne_seq_length vi a m :
  length (filter (λ i, i ≠ vi) (seq a m))
  = m - (if decide (a ≤ vi < a + m) then 1 else 0).
Proof.
  revert a. induction m as [|m IH]; intros a.
  - simpl. by case_decide.
  - simpl. rewrite filter_cons.
    destruct (decide (a ≠ vi)) as [Hne|Heq]; simpl; rewrite IH;
      repeat case_decide; lia.
Qed.

End ScalarProperties.

Section NextProperties.

Import function.

Context {platform : Platform}.

Implicit Types (st : state) (vectors : list StepVector).

(** A pull on a child returns its next result, logs the pull, and leaves the
    operator and the other children as they are. *)
Lemma callNext_spec i st c :
  nextOps st !! i = Some c →
  ∃ st', callNext i st = (nextResult c, st')
         ∧ op st' = op st
         ∧ trace st' = trace st ++ [EvNext i]
         ∧ length (nextOps st') = length (nextOps st)
         ∧ ∀ j, j ≠ i → nextOps st' !! j = nextOps st !! j.
Proof.
  intros Hc. unfold callNext, nextResult. rewrite Hc.
  destruct (childNexts c) as [|r rest].
  - eexists. split; [done|]. by split_and!.
  - eexists. split; [done|]. simpl. split_and!; try done.
    + by rewrite length_insert.
    + intros j Hj. by apply list_lookup_insert_ne.
Qed.

(** When the series array loads, [loadSeries] succeeds, touches no child's
    batches and leaves everything [Next] reads as it is. *)
Lemma loadSeries_ok st :
  seriesLoads st →
  ∃ st', loadSeries st = (Ok tt, st')
         ∧ nextOps st' = nextOps st
         ∧ vectorIndex (op st') = vectorIndex (op st)
         ∧ call (op st') = call (op st)
         ∧ scalarPoints (op st') = scalarPoints (op st)
         ∧ pulls (trace st') = pulls (trace st).
Proof.
  unfold loadSeries, callSeries. intros Hload.
  destruct (once (op st)) eqn:Honce.
  { exists st. by split_and!. }
  destruct (String.eqb _ "vector") eqn:Hname.
  { eexists. split; [done|]. by split_and!. }
  destruct Hload as [?|[Hv|(c&ss&Hc&Hss)]]; [congruence| |].
  { apply String.eqb_neq in Hname. done. }
  rewrite Hc, Hss. eexists. split; [done|]. simpl. split_and!; try done.
  unfold pulls. rewrite omap_app. simpl. by rewrite app_nil_r.
Qed.

(** The loop over the scalar arguments: each one still to visit is pulled
    once, in order, and its values overwrite its column of [scalarPoints]. *)
Lemma pullScalars_spec steps : ∀ indices k st,
  NoDup indices →
  (∀ i, i ∈ indices → i ≠ vectorIndex (op st) →
     ∃ c svs, nextOps st !! i = Some c ∧ nextResult c = Ok svs
              ∧ scalarReady steps svs) →
  steps ≤ length (scalarPoints (op st)) →
  (∀ b row, b < steps → scalarPoints (op st) !! b = Some row →
     k + length (scalarBatches (nextOps st) (vectorIndex (op st)) indices)
     ≤ length row) →
  ∃ st' sp',
    pullScalars indices k steps st = (Ok tt, st')
    ∧ op st' = setScalarPoints (op st) sp'
    ∧ trace st'
      = trace st ++ (EvNext <$> filter (λ i, i ≠ vectorIndex (op st)) indices)
    ∧ length sp' = length (scalarPoints (op st))
    ∧ ∀ b row, b < steps → scalarPoints (op st) !! b = Some row →
        sp' !! b
        = Some (overwriteRow row k
                  ((λ svs, scalarAt svs b)
                     <$> scalarBatches (nextOps st) (vectorIndex (op st))
                                       indices)).
Proof.
  induction indices as [|i indices IH]; intros k st Hnd Hch Hsteps Hrows.
  - exists st, (scalarPoints (op st)). simpl. split_and!; try done.
    + by destruct (op st).
    + by rewrite app_nil_r.
    + intros b row Hb Hrow. rewrite Hrow. f_equal. unfold overwriteRow.
      simpl. rewrite Nat.add_0_r. by rewrite take_drop.
  - apply NoDup_cons in Hnd as [Hi Hnd].
    destruct (decide (i = vectorIndex (op st))) as [Hvi|Hvi].
    + (* the vector argument's own slot is skipped *)
      assert (scalarBatches (nextOps st) (vectorIndex (op st)) (i :: indices)
              = scalarBatches (nextOps st) (vectorIndex (op st)) indices)
        as Hsb.
      { unfold scalarBatches. csimpl. by rewrite decide_True. }
      rewrite Hsb in *. cbn [pullScalars].
      rewrite filter_cons, decide_True by done.
      rewrite decide_False by naive_solver.
      apply IH; try done.
      intros j Hj. apply Hch. by right.
    + destruct (Hch i) as (c&svs&Hc&Hres&Hready); [left|done|].
      destruct (callNext_spec i st c Hc) as (st1&Hcall&Hop1&Htr1&Hlen1&Hoth1).
      assert (scalarBatches (nextOps st) (vectorIndex (op st)) (i :: indices)
              = svs :: scalarBatches (nextOps st) (vectorIndex (op st)) indices)
        as Hsb.
      { unfold scalarBatches. csimpl. rewrite decide_False by done.
        by rewrite Hc, Hres. }
      rewrite Hsb in *. cbn [pullScalars].
      rewrite filter_cons, decide_False by done.
      rewrite decide_True by done.
      unfold bind. rewrite Hcall, Hres.
      destruct (fillScalarPoints_spec steps svs k Hready (seq 0 steps)
                  (scalarPoints (op st1))) as (sp1&->&Hlensp1&Hsp1).
      { intros b Hb%elem_of_seq. split; [lia|]. rewrite Hop1.
        destruct (lookup_lt_is_Some_2 (scalarPoints (op st)) b) as [row Hrow];
          [lia|].
        exists row. split; [done|].
        specialize (Hrows b row ltac:(lia) Hrow). simpl in Hrows. lia. }
      set (st2 := withOp st1 (setScalarPoints (op st1) sp1)).
      assert (scalarBatches (nextOps st2) (vectorIndex (op st2)) indices
              = scalarBatches (nextOps st) (vectorIndex (op st)) indices)
        as Hsb2.
      { unfold st2. simpl. rewrite Hop1. apply scalarBatches_ext.
        intros j Hj _. apply Hoth1. intros ->. done. }
      destruct (IH (S k) st2 Hnd) as (st'&sp'&->&Hop'&Htr'&Hlen'&Hsp').
      { intros j Hj Hjv. unfold st2 in *. simpl in *. rewrite Hop1 in Hjv.
        rewrite Hoth1 by (intros ->; done). apply Hch; [by right|done]. }
      { unfold st2. simpl. rewrite Hlensp1, Hop1. lia. }
      { intros b row Hb. rewrite Hsb2. unfold st2. simpl. rewrite Hsp1.
        rewrite decide_True by (apply elem_of_seq; lia). rewrite Hop1.
        intros (row0&Hrow0&->)%fmap_Some. rewrite length_insert.
        specialize (Hrows b row0 Hb Hrow0). simpl in Hrows. lia. }
      exists st', sp'. split; [done|]. split_and!.
      * rewrite Hop'. unfold st2. simpl. rewrite Hop1. by destruct (op st).
      * rewrite Htr'. unfold st2. simpl. rewrite Htr1, Hop1.
        by rewrite <- app_assoc.
      * rewrite Hlen'. unfold st2. simpl. by rewrite Hlensp1, Hop1.
      * intros b row Hb Hrow.
        rewrite (Hsp' b (<[k := scalarAt svs b]> row) Hb).
        -- rewrite Hsb2. simpl. f_equal. apply overwriteRow_step.
           specialize (Hrows b row Hb Hrow). simpl in Hrows. lia.
        -- unfold st2. simpl. rewrite Hsp1.
           rewrite decide_True by (apply elem_of_seq; lia).
           by rewrite Hop1, Hrow.
Qed.

Lemma pulls_EvNext (l : list nat) : pulls (EvNext <$> l) = l.
Proof. unfold pulls. induction l; csimpl; by f_equal. Qed.

(** [Next] on a ready state: it returns a batch with the same steps, each
    step being [stepResult] under the scalar inputs of that step; it pulls
    the vector argument, then every scalar argument once, in argument order;
    and it leaves the scalar inputs of each step in [scalarPoints]. *)
Lemma Next_ready st vectors :
  nextReady st vectors →
  ∃ out st',
    Next None st = (Ok out, st')
    ∧ length out = length vectors
    ∧ (∀ b s, vectors !! b = Some s →
         ∃ s', out !! b = Some s' ∧ wfStep s'
               ∧ samplesOf s'
                 = stepResult (call (op st))
                     (scalarInputs (nextOps st) (vectorIndex (op st)) b) s
               ∧ histogramsOf s' = [] ∧ T s' = T s)
    ∧ pulls (trace st')
      = pulls (trace st)
        ++ vectorIndex (op st)
           :: filter (λ i, i ≠ vectorIndex (op st))
                     (seq 0 (length (nextOps st)))
    ∧ (∀ b, b < length vectors →
         scalarPoints (op st') !! b
         = Some (scalarInputs (nextOps st) (vectorIndex (op st)) b)).
Proof.
  intros (Hload&(cv&Hcv&Hvec)&Hne&Hwf&Hsteps&Hshape&Hscalars).
  destruct (loadSeries_ok st Hload) as (st0&Hls&Hn0&Hvi0&Hcall0&Hsp0&Htr0).
  unfold Next, bind. rewrite Hls, Hvi0.
  destruct (callNext_spec (vectorIndex (op st)) st0 cv)
    as (st1&Hcn&Hop1&Htr1&Hlen1&Hoth1); [by rewrite Hn0|].
  rewrite Hcn, Hvec.
  destruct vectors as [|v vs]; [done|]. cbv beta iota.
  set (vectors := v :: vs) in *.
  set (vi := vectorIndex (op st)) in *.
  set (m := length (nextOps st)).
  assert (vi < m) as Hvim by (by eapply lookup_lt_Some).
  assert (scalarBatches (nextOps st1) vi (seq 0 m)
          = scalarBatches (nextOps st) vi (seq 0 m)) as Hsb.
  { apply scalarBatches_ext. intros j _ Hj. by rewrite Hoth1, Hn0. }
  assert (∀ i, i ∈ seq 0 m → i ≠ vi →
            ∃ c svs, nextOps st !! i = Some c ∧ nextResult c = Ok svs
                     ∧ scalarReady (length vectors) svs) as Hch.
  { intros i Hi%elem_of_seq Hiv.
    destruct (lookup_lt_is_Some_2 (nextOps st) i) as [c Hc]; [unfold m in *; lia|].
    destruct (Hscalars i c Hiv Hc) as (svs&?&?). eauto. }
  assert (length (scalarBatches (nextOps st) vi (seq 0 m)) = m - 1) as Hsbl.
  { rewrite (scalarBatches_length _ _ (length vectors)) by done.
    rewrite filter_ne_seq_length. rewrite decide_True by lia. done. }
  destruct (pullScalars_spec (length vectors) (seq 0 (length (nextOps st1))) 0 st1)
    as (st2&sp'&Hps&Hop2&Htr2&Hlen2&Hsp2).
  { apply NoDup_seq. }
  { rewrite Hlen1, Hn0, Hop1, Hvi0. fold m. intros i Hi Hiv.
    destruct (Hch i Hi Hiv) as (c&svs&?&?&?). exists c, svs.
    by rewrite Hoth1, Hn0. }
  { by rewrite Hop1, Hsp0. }
  { rewrite Hlen1, Hn0, Hop1, Hvi0, Hsp0. fold m vi. rewrite Hsb, Hsbl.
    intros b row _ Hrow.
    pose proof (Forall_lookup_1 _ _ _ _ Hshape Hrow) as Hr. simpl in Hr.
    fold m in Hr. lia. }
  rewrite Hps.
  rewrite Hlen1, Hn0, Hop1, Hvi0, Hsp0 in *. fold m vi in Htr2, Hsp2.
  rewrite Hsb in Hsp2.
  assert (∀ b, b < length vectors →
            sp' !! b = Some (scalarInputs (nextOps st) vi b)) as Hrows.
  { intros b Hb.
    destruct (lookup_lt_is_Some_2 (scalarPoints (op st)) b) as [row Hrow];
      [lia|].
    rewrite (Hsp2 b row Hb Hrow). f_equal. apply overwriteRow_all.
    pose proof (Forall_lookup_1 _ _ _ _ Hshape Hrow) as Hr. simpl in Hr.
    unfold scalarInputs. fold m. rewrite length_fmap, Hsbl. done. }
  destruct (applyBatch_spec (call (op st2)) (scalarPoints (op st2)) vectors 0)
    as (out&Hab&Hlo&Hout); [done| |].
  { rewrite Hop2. cbn [scalarPoints setScalarPoints]. rewrite Hlen2.
    by rewrite Nat.add_0_l. }
  rewrite Hab. exists out, st2. split; [done|]. split; [done|]. split_and!.
  - intros b s Hs. destruct (Hout b s Hs) as (s'&a&Hs'&Ha&?&Hres&?&?).
    exists s'. split_and!; try done.
    rewrite Hop2 in Ha, Hres. simpl in Ha, Hres.
    rewrite Hrows in Ha by (by eapply lookup_lt_Some).
    simplify_eq/=. by rewrite <- Hcall0.
  - rewrite Htr2, Htr1. unfold pulls in *.
    rewrite !omap_app, Htr0. simpl. fold (pulls (EvNext <$> filter (λ i, i ≠ vi) (seq 0 m))).
    rewrite pulls_EvNext. by rewrite <- app_assoc.
  - intros b Hb. rewrite Hop2. simpl. by apply Hrows.
Qed.

End NextProperties.

Section NextClaims.

Import function.

Context {platform : Platform}.

Implicit Types (st : state) (vectors : list StepVector).

Lemma omap_filter_length {X Y} (f : X → option Y) (g : X → bool) (l : list X) :
  (∀ x, is_Some (f x) ↔ g x = true) →
  length (omap f l) = length (filter (λ x, g x = true) l).
Proof.
  intros Hfg. induction l as [|x l IH]; [done|].
  csimpl. rewrite filter_cons. destruct (f x) as [y|] eqn:Hf.
  - rewrite decide_True by (apply Hfg; by rewrite Hf). simpl. by rewrite IH.
  - rewrite decide_False; [done|].
    intros Hg%Hfg. rewrite Hf in Hg. by destruct Hg.
Qed.

Lemma keepSample_valid call a (p : N * float64) :
  is_Some (keepSample call a p) ↔ validSample call a p = true.
Proof.
  unfold keepSample, validSample. destruct (call p.2 None a) as [v []]; simpl.
  - split; [done|]. by eexists.
  - split; [by intros [? ?]|done].
Qed.

Lemma keepHistogram_valid call a (p : N * FloatHistogram) :
  is_Some (keepHistogram call a p) ↔ validHistogram call a p = true.
Proof.
  unfold keepHistogram, validHistogram.
  destruct (call zero (Some p.2) a) as [v []]; simpl.
  - split; [done|]. by eexists.
  - split; [by intros [? ?]|done].
Qed.

(** C1, as amended: for every step of the batch [Next] returns, each scalar
    sample with a valid result has its value replaced by the result, each
    scalar sample with an invalid result is removed, one scalar sample is
    appended for each histogram sample with a valid result, and so the
    emitted scalar-sample count of the step is the number of input scalar
    samples with a valid result plus the number of input histogram samples
    with a valid result; every emitted sample is a valid result. *)
Theorem Next_scalar_samples st vectors :
  nextReady st vectors →
  ∃ out st',
    Next None st = (Ok out, st')
    ∧ length out = length vectors
    ∧ ∀ b s, vectors !! b = Some s →
        ∃ s', out !! b = Some s'
          ∧ let a := scalarInputs (nextOps st) (vectorIndex (op st)) b in
            let f := call (op st) in
            samplesOf s'
            = omap (keepSample f a) (samplesOf s)
              ++ omap (keepHistogram f a) (histogramsOf s)
            ∧ length (samplesOf s')
              = length (filter (λ p, validSample f a p = true) (samplesOf s))
                + length (filter (λ p, validHistogram f a p = true)
                                 (histogramsOf s))
            ∧ ∀ p, p ∈ samplesOf s' →
                (∃ q, q ∈ samplesOf s ∧ p.1 = q.1
                      ∧ f q.2 None a = (p.2, true))
                ∨ (∃ q, q ∈ histogramsOf s ∧ p.1 = q.1
                        ∧ f zero (Some q.2) a = (p.2, true)).
Proof.
  intros Hready.
  destruct (Next_ready st vectors Hready) as (out&st'&HN&Hlen&Hout&_).
  exists out, st'. split; [done|]. split; [done|].
  intros b s Hs. destruct (Hout b s Hs) as (s'&Hs'&_&Hres&_).
  exists s'. split; [done|]. simpl. unfold stepResult in Hres.
  split; [done|]. split.
  - rewrite Hres, length_app.
    rewrite (omap_filter_length _ _ _ (keepSample_valid _ _)).
    by rewrite (omap_filter_length _ _ _ (keepHistogram_valid _ _)).
  - intros p. rewrite Hres, elem_of_app, !list_elem_of_omap.
    intros [(q&Hq&Hk)|(q&Hq&Hk)]; [left|right]; exists q.
    + unfold keepSample in Hk.
      destruct (call (op st) q.2 None _) as [v []]; simplify_eq/=. done.
    + unfold keepHistogram in Hk.
      destruct (call (op st) zero (Some q.2) _) as [v []]; simplify_eq/=. done.
Qed.

(** C3: for every step of the batch [Next] returns, no histogram sample is
    left, and each input histogram sample with a valid result is turned
    into a scalar sample with the histogram's sample ID and the result as
    value, appended after the scalar samples that were kept. *)
Theorem Next_histograms st vectors :
  nextReady st vectors →
  ∃ out st',
    Next None st = (Ok out, st')
    ∧ length out = length vectors
    ∧ ∀ b s, vectors !! b = Some s →
        ∃ s', out !! b = Some s'
          ∧ let a := scalarInputs (nextOps st) (vectorIndex (op st)) b in
            let f := call (op st) in
            histogramsOf s' = []
            ∧ samplesOf s'
              = omap (keepSample f a) (samplesOf s)
                ++ omap (keepHistogram f a) (histogramsOf s)
            ∧ ∀ id h v, (id, h) ∈ histogramsOf s →
                f zero (Some h) a = (v, true) → (id, v) ∈ samplesOf s'.
Proof.
  intros Hready.
  destruct (Next_ready st vectors Hready) as (out&st'&HN&Hlen&Hout&_).
  exists out, st'. split; [done|]. split; [done|].
  intros b s Hs. destruct (Hout b s Hs) as (s'&Hs'&_&Hres&Hh&_).
  exists s'. split; [done|]. simpl. unfold stepResult in Hres.
  split; [done|]. split; [done|].
  intros id h v Hin Hcall. rewrite Hres, elem_of_app. right.
  apply list_elem_of_omap. exists (id, h). split; [done|].
  unfold keepHistogram. simpl. by rewrite Hcall.
Qed.




End NextClaims.

Section NextExamples.

Import function.

(** Discharges [nextReady] on a concrete state by evaluation. *)
Ltac solve_ready :=
  unfold nextReady, seriesLoads; split_and!;
  [ right; right; eexists _, _; split; reflexivity
  | eexists; split; reflexivity
  | discriminate
  | repeat constructor; unfold swf; simpl; lia
  | simpl; lia
  | repeat constructor
  | intros [|[|i]] c Hne Hc; simplify_eq/=;
    eexists; (split; [reflexivity|]); right;
    (split; [simpl; lia|]); repeat constructor; unfold swf; simpl; lia ].

(** Witness of [Next_scalar_samples]: [abs(10, v)] on a batch of two steps. *)
Lemma Next_scalar_samples_witness :
  nextReady testState testVectors
  ∧ ∃ out st', Next None testState = (Ok out, st') ∧ length out = 2.
Proof.
  assert (nextReady testState testVectors) as H by solve_ready.
  split; [exact H|].
  destruct (Next_scalar_samples testState testVectors H) as (out&st'&HN&Hl&_).
  exists out, st'. split; [exact HN|exact Hl].
Defined.

(** C1 as stated fails on a step with a histogram sample: the step has no
    scalar sample, so no input scalar sample has a valid result, yet one
    scalar sample is emitted, for the histogram. *)
Lemma scalar_count_counterexample :
  ∃ out st' s',
    Next None histogramOnlyState = (Ok out, st')
    ∧ out !! 0 = Some s'
    ∧ length (filter (λ p, validSample testCall [] p = true)
                     (samplesOf histogramOnlyStep)) = 0
    ∧ samplesOf s' = [(7%N, Some 5%Z)].
Proof.
  eexists _, _, _. split; [vm_compute; reflexivity|].
  split; [reflexivity|]. split; reflexivity.
Qed.

(** Witness of [Next_histograms]. *)
Lemma Next_histograms_witness :
  nextReady testState testVectors
  ∧ ∃ out st', Next None testState = (Ok out, st') ∧ length out = 2.
Proof.
  assert (nextReady testState testVectors) as H by solve_ready.
  split; [exact H|].
  destruct (Next_histograms testState testVectors H) as (out&st'&HN&Hl&_).
  exists out, st'. split; [exact HN|exact Hl].
Defined.



End NextExamples.

Section SeriesProperties.

Import function.

Context {platform : Platform}.

Implicit Types (st : state) (l : list Label).

Lemma dropLabel_foldl name l : ∀ acc ret,
  (foldl (dropLabelStep name) (acc, ret) l).1
  = acc ++ filter (λ lb, Name lb ≠ name) l.
Proof.
  induction l as [|lb l IH]; intros acc ret.
  - simpl. by rewrite app_nil_r.
  - cbn [foldl]. rewrite filter_cons. unfold dropLabelStep at 2.
    cbn [fst snd].
    destruct (String.eqb_spec (Name lb) name) as [Heq|Hne].
    + rewrite IH. by rewrite decide_False by naive_solver.
    + rewrite IH, decide_True by done. by rewrite <- app_assoc.
Qed.

(** [dropLabel] keeps, in order, exactly the labels with another name. *)
Lemma dropLabel_filter l name :
  (dropLabel l name).1 = filter (λ lb, Name lb ≠ name) l.
Proof.
  unfold dropLabel. destruct l as [|lb l]; [done|].
  by rewrite dropLabel_foldl.
Qed.

(** Once [loadSeries] has run, [Series] returns the stored array and leaves
    the state as it is: no child is called. *)
Lemma Series_loaded st :
  once (op st) = true → Series st = (Ok (series (op st)), st).
Proof. intros H. unfold Series, bind, loadSeries. by rewrite H. Qed.

Lemma keepsSeries_refl st : keepsSeries st st.
Proof. done. Qed.

Lemma keepsSeries_trans st1 st2 st3 :
  keepsSeries st1 st2 → keepsSeries st2 st3 → keepsSeries st1 st3.
Proof. unfold keepsSeries. intros (?&?&?) (?&?&?). split_and!; congruence. Qed.

Lemma seriesCalls_snoc_Next events i :
  seriesCalls (events ++ [EvNext i]) = seriesCalls events.
Proof.
  unfold seriesCalls. rewrite filter_app, length_app. simpl. lia.
Qed.

Lemma callNext_keeps i st : keepsSeries st (callNext i st).2.
Proof.
  unfold callNext. destruct (nextOps st !! i) as [c|]; [|done].
  destruct (childNexts c); unfold keepsSeries; simpl;
    by rewrite seriesCalls_snoc_Next.
Qed.

Lemma pullScalars_keeps steps : ∀ indices k st,
  keepsSeries st (pullScalars indices k steps st).2.
Proof.
  induction indices as [|i indices IH]; intros k st; [done|].
  cbn [pullScalars]. case_decide; [apply IH|]. unfold bind.
  pose proof (callNext_keeps i st) as Hc.
  destruct (callNext i st) as [[svs| |] st1]; [|done..]. simpl in Hc.
  destruct (fillScalarPoints _ _ _ _) as [sp| |]; [|done..].
  eapply keepsSeries_trans; [exact Hc|].
  eapply keepsSeries_trans; [|apply IH]. done.
Qed.

(** Once the series are loaded, [Next] keeps them, whatever the context and
    whatever the children return. *)
Lemma Next_keeps ctxErr st :
  once (op st) = true → keepsSeries st (Next ctxErr st).2.
Proof.
  intros Honce. unfold Next. destruct ctxErr; [done|].
  unfold bind, loadSeries. rewrite Honce.
  pose proof (callNext_keeps (vectorIndex (op st)) st) as Hc.
  destruct (callNext _ st) as [[vectors| |] st1]; [|done..]. simpl in Hc.
  destruct vectors as [|v vs]; [done|].
  pose proof (pullScalars_keeps (length (v :: vs))
                (seq 0 (length (nextOps st1))) 0 st1) as Hp.
  destruct (pullScalars _ _ _ st1) as [[[]| |] st2]; simpl in *;
    by eapply keepsSeries_trans.
Qed.

Lemma runCalls_keeps calls : ∀ st,
  once (op st) = true → keepsSeries st (runCalls calls st).
Proof.
  unfold runCalls. induction calls as [|c calls IH]; intros st Honce; [done|].
  simpl. assert (keepsSeries st (runCall st c)) as Hk.
  { destruct c; simpl; [by rewrite Series_loaded|by apply Next_keeps]. }
  eapply keepsSeries_trans; [exact Hk|]. apply IH.
  destruct Hk as (_&->&_). done.
Qed.

Lemma runCall_keeps st c :
  once (op st) = true → keepsSeries st (runCall st c).
Proof.
  intros Honce.
  destruct c; simpl; [by rewrite Series_loaded|by apply Next_keeps].
Qed.

Lemma sameLoad_refl st : sameLoad st st.
Proof. done. Qed.

Lemma sameLoad_trans st1 st2 st3 :
  sameLoad st1 st2 → sameLoad st2 st3 → sameLoad st1 st3.
Proof. unfold sameLoad. intros (?&?&?) (?&?&?). split_and!; congruence. Qed.

Lemma callNext_sameLoad i st : sameLoad st (callNext i st).2.
Proof.
  unfold callNext. destruct (nextOps st !! i) as [c|] eqn:Hc; [|done].
  destruct (childNexts c); unfold sameLoad; simpl; [done|].
  split; [done|]. split; [done|].
  rewrite list_fmap_insert. simpl. apply list_insert_id.
  by rewrite list_lookup_fmap, Hc.
Qed.

Lemma loadSeries_sameLoad st : sameLoad st (loadSeries st).2.
Proof.
  unfold loadSeries, callSeries. destruct (once (op st)); [done|].
  destruct (String.eqb _ _); [done|].
  destruct (nextOps st !! _) as [c|]; [|done].
  by destruct (childSeries c).
Qed.

Lemma pullScalars_sameLoad steps : ∀ indices k st,
  sameLoad st (pullScalars indices k steps st).2.
Proof.
  induction indices as [|i indices IH]; intros k st; [done|].
  cbn [pullScalars]. case_decide; [apply IH|]. unfold bind.
  pose proof (callNext_sameLoad i st) as Hc.
  destruct (callNext i st) as [[svs| |] st1]; [|done..]. simpl in Hc.
  destruct (fillScalarPoints _ _ _ _) as [sp| |]; [|done..].
  eapply sameLoad_trans; [exact Hc|].
  eapply sameLoad_trans; [|apply IH]. done.
Qed.

(** Whatever it returns, [loadSeries] leaves the load done, and calls the
    [Series] of a child at most once. *)
Lemma loadSeries_once st : once (op (loadSeries st).2) = true.
Proof.
  unfold loadSeries, callSeries. destruct (once (op st)) eqn:Honce; [done|].
  destruct (String.eqb _ _); [done|].
  destruct (nextOps st !! _) as [c|]; [|done].
  by destruct (childSeries c).
Qed.

Lemma loadSeries_calls st :
  seriesCalls (trace (loadSeries st).2) ≤ S (seriesCalls (trace st)).
Proof.
  unfold loadSeries, callSeries. destruct (once (op st)); [simpl; lia|].
  destruct (String.eqb _ _); [simpl; lia|].
  destruct (nextOps st !! _) as [c|]; [|simpl; lia].
  destruct (childSeries c); simpl; unfold seriesCalls;
    rewrite filter_app, length_app; simpl; lia.
Qed.

(** The state [Series] leaves is the one [loadSeries] leaves. *)
Lemma Series_state st : (Series st).2 = (loadSeries st).2.
Proof. unfold Series, bind. by destruct (loadSeries st) as [[[]| |] st0]. Qed.

(** A [Next] that runs the load goes on as a [Next] on the loaded state. *)
Lemma Next_state st :
  (Next None st).2
  = match loadSeries st with
    | (Ok _, st0) => (Next None st0).2
    | (_, st0) => st0
    end.
Proof.
  pose proof (loadSeries_once st) as Honce.
  unfold Next, bind.
  destruct (loadSeries st) as [[[]| |] st0]; [|done..]. simpl in Honce.
  unfold loadSeries. by rewrite Honce.
Qed.

Lemma Next_sameLoad ctxErr st : sameLoad st (Next ctxErr st).2.
Proof.
  unfold Next. destruct ctxErr; [done|]. unfold bind.
  pose proof (loadSeries_sameLoad st) as Hl.
  destruct (loadSeries st) as [[[]| |] st0]; [|done..]. simpl in Hl.
  pose proof (callNext_sameLoad (vectorIndex (op st0)) st0) as Hc.
  destruct (callNext _ st0) as [[vectors| |] st1]; simpl in Hc;
    [|by eapply sameLoad_trans..].
  destruct vectors as [|v vs]; [by eapply sameLoad_trans|].
  pose proof (pullScalars_sameLoad (length (v :: vs))
                (seq 0 (length (nextOps st1))) 0 st1) as Hp.
  destruct (pullScalars _ _ _ st1) as [[[]| |] st2]; simpl in *;
    eapply sameLoad_trans; try exact Hl;
    by eapply sameLoad_trans.
Qed.

Lemma runCall_sameLoad st c : sameLoad st (runCall st c).
Proof.
  destruct c; cbn [runCall]; [|apply Next_sameLoad].
  rewrite Series_state. apply loadSeries_sameLoad.
Qed.

(** A call on an operator that has not loaded its series leaves it as it
    is, or leaves the load done with at most one [Series] call made on a
    child. *)
Lemma runCall_once st c :
  once (op st) = false →
  runCall st c = st
  ∨ (once (op (runCall st c)) = true
     ∧ seriesCalls (trace (runCall st c)) ≤ S (seriesCalls (trace st))).
Proof.
  intros Honce. pose proof (loadSeries_once st) as Ho.
  pose proof (loadSeries_calls st) as Hn.
  destruct c as [|[e|]]; cbn [runCall].
  - right. by rewrite Series_state.
  - by left.
  - right. rewrite Next_state.
    destruct (loadSeries st) as [[[]| |] st0]; cbn [snd] in *; [|done..].
    destruct (Next_keeps None st0 Ho) as (_&->&->). done.
Qed.

(** Over any calls, the [Series] of a child is called at most once. *)
Lemma runCalls_once calls : ∀ st,
  seriesCalls (trace (runCalls calls st)) ≤ S (seriesCalls (trace st)).
Proof.
  unfold runCalls. induction calls as [|c calls IH]; intros st; [simpl; lia|].
  simpl. destruct (once (op st)) eqn:Honce.
  - destruct (runCalls_keeps (c :: calls) st Honce) as (_&_&Hn).
    unfold runCalls in Hn. simpl in Hn. lia.
  - destruct (runCall_once st c Honce) as [->|[Ho Hn]]; [apply IH|].
    destruct (runCalls_keeps calls _ Ho) as (_&_&Hk).
    unfold runCalls in Hk. lia.
Qed.

(** The load on an operator that has not loaded its series, for a function
    other than [vector] and a vector argument whose [Series] succeeds. *)
Lemma loadSeries_fresh st st' c ss :
  sameLoad st st' → once (op st') = false →
  FuncName (funcExpr (op st)) ≠ "vector" →
  nextOps st !! vectorIndex (op st) = Some c → childSeries c = Ok ss →
  ∃ st0, loadSeries st' = (Ok tt, st0)
         ∧ series (op st0)
           = (λ l, filter (λ lb, Name lb ≠ MetricName) l) <$> ss
         ∧ seriesCalls (trace st0) = 1 + seriesCalls (trace st')
         ∧ pulls (trace st0) = pulls (trace st').
Proof.
  intros (Hfe&Hvi&Hcs) Honce Hname%String.eqb_neq Hc Hss.
  assert (∃ c', nextOps st' !! vectorIndex (op st') = Some c'
                ∧ childSeries c' = Ok ss) as (c'&Hc'&Hss').
  { pose proof (f_equal (λ rs, rs !! vectorIndex (op st)) Hcs) as Hl.
    simpl in Hl. rewrite !list_lookup_fmap, Hc in Hl. rewrite Hvi.
    destruct (nextOps st' !! vectorIndex (op st)) as [c'|]; [|done].
    exists c'. split; [done|]. simpl in Hl. congruence. }
  unfold loadSeries, callSeries. rewrite Honce, Hfe, Hname, Hc', Hss'.
  eexists. split; [done|]. simpl. split_and!.
  - apply list_fmap_ext. intros _ l _. apply dropLabel_filter.
  - unfold seriesCalls. rewrite filter_app, length_app. simpl. lia.
  - unfold pulls. rewrite omap_app. simpl. by rewrite app_nil_r.
Qed.

(** The load for the function [vector]: no child is called. *)
Lemma loadSeries_fresh_vector st st' :
  sameLoad st st' → once (op st') = false →
  FuncName (funcExpr (op st)) = "vector" →
  ∃ st0, loadSeries st' = (Ok tt, st0)
         ∧ series (op st0) = [[]]
         ∧ seriesCalls (trace st0) = 0 + seriesCalls (trace st')
         ∧ pulls (trace st0) = pulls (trace st').
Proof.
  intros (Hfe&_) Honce Hname%String.eqb_eq.
  unfold loadSeries. rewrite Honce, Hfe, Hname. eexists. by split_and!.
Qed.

(** When the load, whichever call runs it, gives the array [expected] with
    [k] calls on children, then after any calls the operator either has not
    loaded yet, or holds [expected] and has made [k] calls. *)
Lemma runCalls_load st expected k :
  once (op st) = false →
  (∀ st', sameLoad st st' → once (op st') = false →
     ∃ st0, loadSeries st' = (Ok tt, st0)
            ∧ series (op st0) = expected
            ∧ seriesCalls (trace st0) = k + seriesCalls (trace st')
            ∧ pulls (trace st0) = pulls (trace st')) →
  ∀ calls,
    sameLoad st (runCalls calls st)
    ∧ ((once (op (runCalls calls st)) = false
        ∧ seriesCalls (trace (runCalls calls st)) = seriesCalls (trace st))
       ∨ (once (op (runCalls calls st)) = true
          ∧ series (op (runCalls calls st)) = expected
          ∧ seriesCalls (trace (runCalls calls st))
            = k + seriesCalls (trace st))).
Proof.
  intros Honce Hload calls. unfold runCalls.
  induction calls as [|c calls IH] using rev_ind; [split; [done|by left]|].
  rewrite foldl_app. cbn [foldl]. set (st' := foldl runCall st calls) in *.
  destruct IH as [Hsame IH]. split.
  { eapply sameLoad_trans; [exact Hsame|apply runCall_sameLoad]. }
  destruct IH as [[Ho Hn]|(Ho&Hs&Hn)].
  - destruct (Hload st' Hsame Ho) as (st0&Hl&Hs0&Hn0&_).
    pose proof (loadSeries_once st') as Ho0. rewrite Hl in Ho0. simpl in Ho0.
    destruct c as [|[e|]]; cbn [runCall].
    + right. rewrite Series_state, Hl. simpl. split_and!; [done..|lia].
    + left. done.
    + right. rewrite Next_state, Hl.
      destruct (Next_keeps None st0 Ho0) as (->&->&->).
      split_and!; [done..|lia].
  - right. destruct (runCall_keeps st' c Ho) as (->&->&->). done.
Qed.

(** What [Series] returns after any calls, under the hypothesis of
    [runCalls_load]. *)
Lemma Series_after_calls st expected k :
  once (op st) = false →
  (∀ st', sameLoad st st' → once (op st') = false →
     ∃ st0, loadSeries st' = (Ok tt, st0)
            ∧ series (op st0) = expected
            ∧ seriesCalls (trace st0) = k + seriesCalls (trace st')
            ∧ pulls (trace st0) = pulls (trace st')) →
  ∀ calls,
    ∃ st1, Series (runCalls calls st) = (Ok expected, st1)
           ∧ seriesCalls (trace st1) = k + seriesCalls (trace st)
           ∧ (once (op (runCalls calls st)) = true
              → st1 = runCalls calls st).
Proof.
  intros Honce Hload calls.
  destruct (runCalls_load st expected k Honce Hload calls)
    as [Hsame [[Ho Hn]|(Ho&Hs&Hn)]].
  - destruct (Hload _ Hsame Ho) as (st0&Hl&Hs0&Hn0&_).
    exists st0. unfold Series, bind. rewrite Hl, Hs0.
    split; [done|]. split; [lia|]. intros Ho'. congruence.
  - exists (runCalls calls st). rewrite Series_loaded by done.
    rewrite Hs. done.
Qed.

(** C2: take an operator that has not loaded its series yet and make any
    calls of [Series] and [Next] on it, whatever they return. Over these
    calls the [Series] of a child is called at most once. A [Series] call
    made after them returns the vector argument's series with the
    metric-name label dropped from every label set, when that argument's
    [Series] succeeds, and by then the argument's [Series] has been called
    exactly once, whether this call, an earlier [Series] or an earlier
    [Next] ran the load; for the function [vector] it returns a single empty
    label set and no child's [Series] has been called. Once the load is
    done, [Series] leaves the operator as it is. *)
Theorem Series_once st calls :
  once (op st) = false →
  seriesCalls (trace (runCalls calls st)) ≤ S (seriesCalls (trace st))
  ∧ (FuncName (funcExpr (op st)) ≠ "vector" →
     ∀ c ss, nextOps st !! vectorIndex (op st) = Some c →
       childSeries c = Ok ss →
       ∃ st1,
         Series (runCalls calls st)
         = (Ok ((λ l, filter (λ lb, Name lb ≠ MetricName) l) <$> ss), st1)
         ∧ seriesCalls (trace st1) = S (seriesCalls (trace st))
         ∧ (once (op (runCalls calls st)) = true
            → st1 = runCalls calls st))
  ∧ (FuncName (funcExpr (op st)) = "vector" →
     ∃ st1,
       Series (runCalls calls st) = (Ok [[]], st1)
       ∧ seriesCalls (trace st1) = seriesCalls (trace st)
       ∧ (once (op (runCalls calls st)) = true
          → st1 = runCalls calls st)).
Proof.
  intros Honce. split; [apply runCalls_once|]. split.
  - intros Hname c ss Hc Hss.
    apply (Series_after_calls st _ 1 Honce).
    intros st' Hsame Ho. by eapply loadSeries_fresh.
  - intros Hname.
    apply (Series_after_calls st _ 0 Honce).
    intros st' Hsame Ho. by eapply loadSeries_fresh_vector.
Qed.

End SeriesProperties.

Section FailureProperties.

Import function.

Context {platform : Platform}.

Implicit Types (st : state).

(** On the call that runs [loadSeries] for the first time, a failure of the
    vector argument's [Series] is returned as it is by [Series] and by
    [Next], and no child is pulled. *)
Lemma Series_failure_first_call st c e :
  once (op st) = false → FuncName (funcExpr (op st)) ≠ "vector" →
  nextOps st !! vectorIndex (op st) = Some c → childSeries c = Err e →
  ∃ st', Series st = (Err e, st') ∧ Next None st = (Err e, st')
         ∧ pulls (trace st') = pulls (trace st)
         ∧ once (op st') = true ∧ series (op st') = series (op st).
Proof.
  intros Honce Hname%String.eqb_neq Hc He.
  unfold Series, Next, bind, loadSeries, callSeries.
  rewrite Honce, Hname, Hc, He. eexists. split_and!; try done.
  simpl. unfold pulls. rewrite omap_app. simpl. by rewrite app_nil_r.
Qed.

(** A failure of the vector argument's [Next] is returned as it is, and no
    scalar argument is pulled. *)
Lemma Next_vector_failure st c e :
  once (op st) = true →
  nextOps st !! vectorIndex (op st) = Some c → nextResult c = Err e →
  ∃ st', Next None st = (Err e, st')
         ∧ pulls (trace st') = pulls (trace st) ++ [vectorIndex (op st)].
Proof.
  intros Honce Hc He. unfold Next, bind, loadSeries. rewrite Honce.
  destruct (callNext_spec _ st c Hc) as (st'&->&_&Htr&_). rewrite He.
  exists st'. split; [done|]. rewrite Htr. unfold pulls.
  by rewrite omap_app.
Qed.

(** A cancelled context makes [Next] fail with the context's error before
    anything is loaded or pulled. *)
Lemma Next_cancelled st e : Next (Some e) st = (Err e, st).
Proof. done. Qed.

End FailureProperties.

Section FailureExamples.

Import function.

(** C6, at the failing input: the vector argument's [Series] fails. The
    first [Series] call returns the error; the second returns an empty
    array and no error, and a following [Next] goes on to pull the vector
    argument and returns a batch. *)
Theorem Series_failure_forgotten :
  ∃ st1,
    Series failingSeriesState = (Err "series failed", st1)
    ∧ Series st1 = (Ok [], st1)
    ∧ ∃ out st2, Next None st1 = (Ok out, st2)
                 ∧ length out = 1 ∧ pulls (trace st2) = [0].
Proof.
  eexists. split; [reflexivity|]. split; [reflexivity|].
  eexists _, _. split; [vm_compute; reflexivity|]. split; reflexivity.
Qed.

(** Witness of [Series_once]: the series of [abs(10, v)], asked for after
    a [Next] that ran the load and a first [Series]. *)
Lemma Series_once_witness :
  ∃ st1, Series (runCalls [CallNext None; CallSeries] testState)
         = (Ok [[mkLabel "job" "a"]; []], st1)
         ∧ seriesCalls (trace st1) = 1.
Proof.
  destruct (Series_once testState [CallNext None; CallSeries] eq_refl)
    as (_&H&_).
  destruct (H ltac:(discriminate) _ _ eq_refl eq_refl) as (st1&HS&Hn&_).
  exists st1. split; [exact HS|exact Hn].
Defined.

End FailureExamples.

Section ErrorOrigin.

Import function.

Context {platform : Platform}.

Implicit Types (st : state) (s : StepVector).

Lemma sampleStep_measure call args n0 s i s' i' :
  i < len (Samples s) → sampleStep call args n0 s i = Ok (s', i') →
  len (Samples s') - i' < len (Samples s) - i.
Proof.
  unfold sampleStep, RemoveSample, sremove. intros Hi H.
  destruct (aliasGet _ _ _); [|done]. destruct args; [|done].
  destruct (call _ _ _) as [v []].
  - inversion H; subst; simpl. lia.
  - repeat case_decide; inversion H; subst; simpl; lia.
Qed.

Lemma histogramStep_measure call args h0 s i s' :
  i < len (Histograms s) → histogramStep call args h0 s i = Ok s' →
  len (Histograms s') < len (Histograms s).
Proof.
  unfold histogramStep, RemoveHistogram, sremove. intros Hi H.
  destruct (aliasGet _ _ _); [|done]. destruct args; [|done].
  destruct (call _ _ _) as [v ok]. destruct (sget _ _); [|done].
  repeat case_decide; try done.
  inversion H; subst. destruct ok; simpl; lia.
Qed.

(** The loops over a step return no error of their own. *)
Lemma sampleLoop_no_error call args n0 e k : ∀ s i,
  len (Samples s) - i = k → sampleLoop call args n0 s i ≠ Err e.
Proof.
  induction k as [k IH] using lt_wf_ind. intros s i Hk Heq.
  rewrite sampleLoop_step in Heq. case_decide as Hi; [|done].
  destruct (sampleStep call args n0 s i) as [[s' i']|e'|] eqn:Hstep; [| |done].
  - pose proof (sampleStep_measure _ _ _ _ _ _ _ Hi Hstep).
    eapply (IH (len (Samples s') - i')); [lia|done|exact Heq].
  - unfold sampleStep in Hstep.
    destruct (aliasGet _ _ _); [|done]. destruct args; [|done].
    destruct (call _ _ _) as [v []]; [done|].
    by destruct (RemoveSample s i).
Qed.

Lemma histogramLoop_no_error call args h0 e k : ∀ s,
  len (Histograms s) = k → histogramLoop call args h0 s 0 ≠ Err e.
Proof.
  induction k as [k IH] using lt_wf_ind. intros s Hk Heq.
  rewrite histogramLoop_step in Heq. case_decide as Hi; [|done].
  destruct (histogramStep call args h0 s 0) as [s'|e'|] eqn:Hstep; [| |done].
  - pose proof (histogramStep_measure _ _ _ _ _ _ Hi Hstep).
    eapply (IH (len (Histograms s'))); [lia|done|exact Heq].
  - unfold histogramStep in Hstep.
    destruct (aliasGet _ _ _); [|done]. destruct args; [|done].
    destruct (call _ _ _) as [v ok]. destruct (sget _ _); [|done].
    by destruct (RemoveHistogram s 0).
Qed.

Lemma applyBatch_no_error call sp e vectors : ∀ b,
  applyBatch call sp b vectors ≠ Err e.
Proof.
  induction vectors as [|s vectors IH]; intros b; [done|]. simpl.
  unfold applyStep.
  destruct (sampleLoop _ _ _ s 0) as [s1|e1|] eqn:H1.
  - destruct (histogramLoop _ _ _ s1 0) as [s2|e2|] eqn:H2; [| |done].
    + specialize (IH (S b)). by destruct (applyBatch _ _ _ vectors).
    + by eapply histogramLoop_no_error in H2.
  - by eapply sampleLoop_no_error in H1.
  - done.
Qed.

Lemma fillScalarPoints_no_error svs k e bs : ∀ sp,
  fillScalarPoints svs k bs sp ≠ Err e.
Proof.
  induction bs as [|b bs IH]; intros sp; [done|]. simpl.
  unfold scalarValue, setScalarPoint.
  repeat (case_match; try done).
Qed.

(** An error of the loop over the scalar arguments is the error one of the
    arguments visited returned from its [Next]. *)
Lemma pullScalars_error steps e : ∀ indices k st st',
  NoDup indices → pullScalars indices k steps st = (Err e, st') →
  ∃ i c, i ∈ indices ∧ i ≠ vectorIndex (op st)
         ∧ nextOps st !! i = Some c ∧ nextResult c = Err e.
Proof.
  induction indices as [|i indices IH]; intros k st st' Hnd H; [done|].
  apply NoDup_cons in Hnd as [Hi Hnd]. cbn [pullScalars] in H.
  case_decide.
  { destruct (IH _ _ _ Hnd H) as (j&c&?&?&?&?). exists j, c.
    split; [by right|done]. }
  unfold bind in H. destruct (nextOps st !! i) as [c|] eqn:Hc.
  - destruct (callNext_spec i st c Hc) as (st1&Hcall&Hop1&_&_&Hoth).
    rewrite Hcall in H. destruct (nextResult c) as [svs|e1|] eqn:Hres.
    + pose proof (fillScalarPoints_no_error svs k e (seq 0 steps)
                    (scalarPoints (op st1))) as Hfill.
      destruct (fillScalarPoints _ _ _ _) as [sp|e2|]; [| |done].
      * destruct (IH _ _ _ Hnd H) as (j&c'&Hj&Hjv&Hc'&?). exists j, c'.
        simpl in Hc', Hjv. rewrite Hop1 in Hjv.
        split; [by right|]. split; [done|]. split; [|done].
        rewrite Hoth in Hc'; [done|]. intros ->. done.
      * congruence.
    + exists i, c. split; [left|]. split; [done|]. split; [done|]. congruence.
    + done.
  - unfold callNext in H. by rewrite Hc in H.
Qed.

(** [Next] makes no error of its own: an error it returns is the context's
    error, or the error the vector argument's [Series] returned, or the
    error a child's [Next] returned. *)
Lemma Next_error_origin ctxErr st e st' :
  Next ctxErr st = (Err e, st') →
  ctxErr = Some e
  ∨ ∃ i c, nextOps st !! i = Some c
           ∧ (childSeries c = Err e ∨ nextResult c = Err e).
Proof.
  unfold Next. destruct ctxErr as [e0|].
  { intros [= ->]. by left. }
  intros H. right. unfold bind in H.
  assert (∃ st0, (loadSeries st = (Ok tt, st0) ∧ nextOps st0 = nextOps st
                  ∧ vectorIndex (op st0) = vectorIndex (op st))
                 ∨ (∃ c, loadSeries st = (Err e, st')
                         ∧ nextOps st !! vectorIndex (op st) = Some c
                         ∧ childSeries c = Err e)) as [st0 [(Hl&Hn&Hv)|(c&Hl&Hc&He)]].
  { unfold loadSeries, callSeries in *.
    destruct (once (op st)); [by eauto|].
    destruct (String.eqb _ _); [by eauto|].
    destruct (nextOps st !! vectorIndex (op st)) as [c|] eqn:Hc; [|done].
    destruct (childSeries c) as [ss|e1|] eqn:Hs; [by eauto| |done].
    exists st. right. exists c. simplify_eq/=. done. }
  2: { eauto. }
  rewrite Hl, Hv in H.
  destruct (nextOps st0 !! vectorIndex (op st)) as [c|] eqn:Hc.
  2: { unfold callNext in H. by rewrite Hc in H. }
  destruct (callNext_spec _ st0 c Hc) as (st1&Hcall&Hop1&_&Hlen&Hoth).
  rewrite Hcall in H. destruct (nextResult c) as [vectors|e1|] eqn:Hres.
  - destruct vectors as [|v vs]; [done|].
    destruct (pullScalars _ _ _ st1) as [[[]|e2|] st2] eqn:Hp.
    + apply (f_equal fst) in H. cbn [fst] in H.
      by apply applyBatch_no_error in H.
    + destruct (pullScalars_error _ _ _ _ _ _ (NoDup_seq _ _) Hp)
        as (i&c'&_&Hne&Hc'&He).
      rewrite Hop1, Hv in Hne.
      inversion H; subst. exists i, c'.
      rewrite <- Hn, <- Hoth by done. eauto.
    + done.
  - inversion H; subst. exists (vectorIndex (op st)), c.
    rewrite <- Hn. eauto.
  - done.
Qed.

End ErrorOrigin.

Section ConstructorProperties.

Import function.

Context {platform : Platform} {builtins : Builtins} {machine : Machine}.

Implicit Types (fe : Call) (ops : list child) (batch : Z) (opts : Options).

Lemma not_special_eqb name s :
  name ∉ specialNames → s ∈ specialNames → String.eqb name s = false.
Proof. intros Hn Hs. apply String.eqb_neq. intros ->. done. Qed.

(** A name that is not handed to a special operator reaches one of the two
    general constructors, chosen by whether there are operator inputs. *)
Lemma NewFunctionOperator_general fe ops batch opts :
  FuncName fe ∉ specialNames →
  NewFunctionOperator fe ops batch opts
  = if Nat.eqb (length ops) 0 then newNoArgsFunctionOperator fe batch opts
    else newInstantVectorFunctionOperator fe ops batch opts.
Proof.
  intros Hn. unfold NewFunctionOperator.
  rewrite !(not_special_eqb (FuncName fe)); try done;
    unfold specialNames; repeat first [by left | right].
Qed.

(** C8: for a function name that is not one of the specially dispatched
    names and is not in the applicable dispatch table (the no-argument table
    when there are no operator inputs, the instant-vector table otherwise),
    the constructor returns the unknown function error and no operator; and
    [Next] makes no error of its own: an error it returns is the context's
    error or an error a child returned. *)
Theorem NewFunctionOperator_unknown fe ops batch opts :
  FuncName fe ∉ specialNames →
  (ops = [] → noArgFuncs !! FuncName fe = None) →
  (ops ≠ [] → instantVectorFuncs !! FuncName fe = None) →
  NewFunctionOperator fe ops batch opts
  = Err (UnknownFunctionError (FuncName fe))
  ∧ (∀ o, NewFunctionOperator fe ops batch opts ≠ Ok o)
  ∧ ∀ ctxErr st e st',
      Next ctxErr st = (Err e, st') →
      ctxErr = Some e
      ∨ ∃ i c, nextOps st !! i = Some c
               ∧ (childSeries c = Err e ∨ nextResult c = Err e).
Proof.
  intros Hn Hnoarg Hinst.
  assert (NewFunctionOperator fe ops batch opts
          = Err (UnknownFunctionError (FuncName fe))) as Heq.
  { rewrite NewFunctionOperator_general by done. destruct ops as [|c ops].
    - simpl. unfold newNoArgsFunctionOperator. by rewrite Hnoarg.
    - simpl. unfold newInstantVectorFunctionOperator. by rewrite Hinst. }
  split; [done|]. split; [by rewrite Heq|].
  apply Next_error_origin.
Qed.

(** C10, as amended: the no-argument operator is built with a step interval
    of 1 when the step duration has no whole millisecond (it is shorter than
    a millisecond, zero included), and with the duration's whole
    milliseconds otherwise, which are then not zero. *)
Theorem newNoArgsFunctionOperator_step fe batch opts c :
  noArgFuncs !! FuncName fe = Some c →
  ∃ o, newNoArgsFunctionOperator fe batch opts = Ok (noArgOperator o)
       ∧ ((-1000000 < Step opts < 1000000)%Z → step o = 1%Z)
       ∧ ((Step opts ≤ -1000000 ∨ 1000000 ≤ Step opts)%Z →
          step o = Milliseconds (Step opts) ∧ step o ≠ 0%Z)
       ∧ currentStep o = UnixMilli (Start opts)
       ∧ mint o = UnixMilli (Start opts)
       ∧ maxt o = UnixMilli (End opts)
       ∧ sampleIDs o = [0%N].
Proof.
  intros Hc. unfold newNoArgsFunctionOperator. rewrite Hc.
  assert ((-1000000 < Step opts < 1000000)%Z
          ↔ Milliseconds (Step opts) = 0%Z) as Hsmall.
  { unfold Milliseconds. rewrite Z.quot_small_iff by lia. lia. }
  destruct (_ || _); eexists; (split; [done|]); simpl; split_and!; try done.
  - intros H%Hsmall. by rewrite H.
  - intros H. destruct (Z.eqb_spec (Milliseconds (Step opts)) 0) as [H0|H0].
    + apply Hsmall in H0. lia.
    + done.
  - intros H%Hsmall. by rewrite H.
  - intros H. destruct (Z.eqb_spec (Milliseconds (Step opts)) 0) as [H0|H0].
    + apply Hsmall in H0. lia.
    + done.
Qed.

End ConstructorProperties.

Section ConstructorExamples.

Import function.

Local Open Scope Z_scope.

(** Witness of [NewFunctionOperator_unknown]: [foo()] is in no table. *)
Lemma NewFunctionOperator_unknown_witness :
  NewFunctionOperator (mkCall "foo" [] "foo()") [] 10 (testOptions 0 10000 5000)
  = Err "unknown function: foo".
Proof.
  apply (NewFunctionOperator_unknown (mkCall "foo" [] "foo()") [] 10
           (testOptions 0 10000 5000)).
  - unfold specialNames. simpl. intros H.
    repeat (apply elem_of_cons in H as [H|H]; [discriminate|]).
    by apply elem_of_nil in H.
  - reflexivity.
  - intros H. by destruct H.
Defined.

(** Witness of [newNoArgsFunctionOperator_step]: [time()] every 5s. *)
Lemma newNoArgsFunctionOperator_step_witness :
  ∃ o, newNoArgsFunctionOperator (mkCall "time" [] "time()") 10
         (testOptions 0 10000 5000000000) = Ok (noArgOperator o)
       ∧ step o = 5000.
Proof.
  assert (∃ c, noArgFuncs !! "time"%string = Some c) as [c Hc]
    by (eexists; reflexivity).
  destruct (newNoArgsFunctionOperator_step (mkCall "time" [] "time()") 10
              (testOptions 0 10000 5000000000) c Hc)
    as (o&Ho&_&Hbig&_).
  exists o. split; [exact Ho|]. apply Hbig. simpl. lia.
Defined.

(** C10 as stated fails: a step duration of half a millisecond is not zero,
    it has no whole millisecond, and the interval is 1. *)
Lemma step_interval_counterexample :
  ∃ o, newNoArgsFunctionOperator (mkCall "time" [] "time()") 10
         (testOptions 0 10000 500000) = Ok (noArgOperator o)
       ∧ Step (testOptions 0 10000 500000) ≠ 0
       ∧ Milliseconds (Step (testOptions 0 10000 500000)) = 0
       ∧ step o = 1.
Proof. eexists. split; [reflexivity|]. split; [done|]. split; reflexivity. Qed.

End ConstructorExamples.

(** * Further properties of the execution plan builder *)

Section BuilderShape.

Import executionplan.

Context {env : Collaborators}.

Implicit Types (e : Expr) (storage : Storage) (mint maxt step : Z).

Lemma newOperator_leaf e storage mint maxt step :
  isAggregateExpr e = false →
  newOperator e storage mint maxt step
  = if isLeaf e then
      match e with
      | VectorSelector _ ms =>
          Ok (concurrent (NewVectorSelector storage ms mint maxt step))
      | Call _ (MatrixSelector (VectorSelector _ ms) r :: _) =>
          Ok (concurrent (NewMatrixSelector storage ms mint maxt step r))
      | _ => Panic
      end
    else if isPanicLeaf e then Panic else Err (unsupported e).
Proof.
  destruct e as [| | |f [|[] ?]| | | | | |]; try done. simpl.
  by destruct VectorSel.
Qed.

(** The builder returns an operator exactly when the expression is a chain
    of aggregations, each with an accepted aggregation operator, over a leaf
    it has an operator for. *)
Theorem newOperator_builds_iff e storage mint maxt step :
  (∃ r, newOperator e storage mint maxt step = Ok r)
  ↔ isLeaf (aggregated e) = true
    ∧ Forall (λ op, aggregationError op = None) (aggregations e).
Proof.
  induction e as [Op inner IH Param Grouping Without| | | | | | | | |];
    try (rewrite newOperator_leaf by done; simpl; split;
         [intros [r Hr]; by repeat case_match
         |intros [Hl _]; simpl in Hl; repeat case_match; by eauto]).
  simpl. rewrite Forall_cons. split.
  - intros [r Hr].
    destruct (newOperator inner storage mint maxt step) as [next| |] eqn:Hi;
      [|done..].
    unfold NewAggregate in Hr.
    destruct (aggregationError Op) eqn:Hop; [done|].
    destruct IH as [IH _]. destruct IH as [? ?]; by eauto.
  - intros (Hl&Hop&Hall). destruct IH as [_ [next ->]]; [done|].
    unfold NewAggregate. rewrite Hop. by eauto.
Qed.

(** Every operator the builder returns is a concurrency decorator at its
    root and has one decorator for each aggregation plus one for the leaf;
    its aggregate operators carry, outermost first, the operator, the
    negated "without" marker and the grouping labels of the expression's
    aggregations. *)
Theorem newOperator_tree e storage mint maxt step r :
  newOperator e storage mint maxt step = Ok r →
  (∃ inner, r = concurrentOp inner)
  ∧ decorators r = S (length (aggregations e))
  ∧ aggregates r = aggregationArgs e.
Proof.
  revert r.
  induction e as [Op inner IH Param Grouping Without| | | | | | | | |];
    intros r Hr;
    try (rewrite newOperator_leaf in Hr by done; simpl in Hr;
         repeat case_match; simplify_eq/=; by eauto).
  simpl in Hr.
  destruct (newOperator inner storage mint maxt step) as [next| |]; [|done..].
  unfold NewAggregate in Hr. destruct (aggregationError Op); [done|].
  simplify_eq/=. destruct (IH next eq_refl) as (_&->&->). by eauto.
Qed.

(** An error the builder returns is the unsupported expression error for
    the expression under the aggregations, not for the whole expression, or
    the error of an aggregation operator the aggregate operator rejects. *)
Theorem newOperator_error e storage mint maxt step msg :
  newOperator e storage mint maxt step = Err msg →
  msg = unsupported (aggregated e)
  ∨ ∃ op, op ∈ aggregations e ∧ aggregationError op = Some msg.
Proof.
  induction e as [Op inner IH Param Grouping Without| | | | | | | | |];
    intros Hr;
    try (rewrite newOperator_leaf in Hr by done; simpl in Hr;
         repeat case_match; simplify_eq/=; by left).
  simpl in Hr.
  destruct (newOperator inner storage mint maxt step) as [next|e1|] eqn:Hi.
  - unfold NewAggregate in Hr.
    destruct (aggregationError Op) eqn:Hop; [|done].
    simplify_eq/=. right. exists Op. split; [left|done].
  - simplify_eq/=. destruct (IH eq_refl) as [->|(op&?&?)]; [by left|].
    right. exists op. split; [by right|done].
  - done.
Qed.

(** The builder panics exactly when the expression under the aggregations
    is a call without arguments or a call on a matrix selector that holds no
    vector selector; no aggregation operator is checked on the way. *)
Theorem newOperator_panics_iff e storage mint maxt step :
  newOperator e storage mint maxt step = Panic
  ↔ isPanicLeaf (aggregated e) = true.
Proof.
  induction e as [Op inner IH Param Grouping Without| | | | | | | | |];
    try (rewrite newOperator_leaf by done; simpl;
         repeat case_match; by split).
  simpl. rewrite <- IH.
  destruct (newOperator inner storage mint maxt step) as [next| |]; try done.
  unfold NewAggregate. by destruct (aggregationError Op).
Qed.

End BuilderShape.

Section BuilderShapeExamples.

Import executionplan.

Local Open Scope Z_scope.

(** Witness of [newOperator_tree]: [sum by (job) (max without (pod) (up))]. *)
Lemma newOperator_tree_witness :
  ∃ r, newOperator
         (AggregateExpr 1 (AggregateExpr 2 (VectorSelector "up" []) None
                             ["pod"] true) None ["job"] false)
         testStorage 0 10 1 = Ok r
       ∧ decorators r = 3%nat
       ∧ aggregates r = [(1, true, ["job"]); (2, false, ["pod"])].
Proof.
  eexists. split; [reflexivity|].
  apply (newOperator_tree (env := testCollaborators)
           (AggregateExpr 1 (AggregateExpr 2 (VectorSelector "up" []) None
                               ["pod"] true) None ["job"] false)
           testStorage 0 10 1 _ eq_refl).
Defined.

(** Witness of [newOperator_error]: [sum(1)] names the literal. *)
Lemma newOperator_error_witness :
  "unsupported expression number" = unsupported (NumberLiteral 1)
  ∨ ∃ op, op ∈ aggregations (AggregateExpr 1 (NumberLiteral 1) None [] false)
          ∧ aggregationError op = Some "unsupported expression number".
Proof.
  apply (newOperator_error (env := testCollaborators)
           (AggregateExpr 1 (NumberLiteral 1) None [] false)
           testStorage 0 10 1 "unsupported expression number" eq_refl).
Defined.

End BuilderShapeExamples.

(** * Further properties of the function operator *)

Section DropLabelProperties.

Import function.

Implicit Types (l : list Label) (name : string).

Lemma filter_all {X} (P : X → Prop) `{∀ x, Decision (P x)} (l : list X) :
  (∀ x, x ∈ l → P x) → filter P l = l.
Proof.
  induction l as [|x l IH]; intros Hall; [done|].
  rewrite filter_cons_True by (apply Hall; left).
  f_equal. apply IH. intros y Hy. apply Hall. by right.
Qed.

Lemma filter_none {X} (P : X → Prop) `{∀ x, Decision (P x)} (l : list X) :
  (∀ x, x ∈ l → ¬ P x) → filter P l = [].
Proof.
  induction l as [|x l IH]; intros Hall; [done|].
  rewrite filter_cons_False by (apply Hall; left).
  apply IH. intros y Hy. apply Hall. by right.
Qed.

Lemma dropLabel_foldl_dropped name l : ∀ acc ret,
  (foldl (dropLabelStep name) (acc, ret) l).2
  = default ret (last (filter (λ lb, Name lb = name) l)).
Proof.
  induction l as [|lb l IH]; intros acc ret; [done|].
  cbn [foldl]. rewrite filter_cons. unfold dropLabelStep at 2. cbn [fst snd].
  destruct (String.eqb_spec (Name lb) name) as [Heq|Hne].
  - rewrite IH, decide_True by done.
    destruct (filter _ l) as [|x xs] eqn:Hf; [done|].
    rewrite last_cons_cons.
    destruct (last (x :: xs)) eqn:Hl; [done|]. by apply last_None in Hl.
  - by rewrite IH, decide_False by done.
Qed.

Lemma dropLabel_dropped l name :
  (dropLabel l name).2
  = default emptyLabel (last (filter (λ lb, Name lb = name) l)).
Proof.
  unfold dropLabel. destruct l as [|lb l]; [done|].
  by rewrite dropLabel_foldl_dropped.
Qed.

(** [dropLabel] returns the labels with another name, in their order, and,
    as the dropped label, the last label with the name, or the zero label
    when there is none. *)
Theorem dropLabel_result l name :
  dropLabel l name
  = (filter (λ lb, Name lb ≠ name) l,
     default emptyLabel (last (filter (λ lb, Name lb = name) l))).
Proof.
  rewrite (surjective_pairing (dropLabel l name)).
  by rewrite dropLabel_filter, dropLabel_dropped.
Qed.

(** Dropping a label twice is dropping it once, and the result holds no
    label with the name. *)
Theorem dropLabel_idempotent l name :
  (dropLabel (dropLabel l name).1 name).1 = (dropLabel l name).1
  ∧ ∀ lb, lb ∈ (dropLabel l name).1 → Name lb ≠ name.
Proof.
  rewrite !dropLabel_filter. split.
  - apply filter_all. intros lb Hlb%list_elem_of_filter. by destruct Hlb.
  - intros lb Hlb%list_elem_of_filter. by destruct Hlb.
Qed.

(** When no label has the name, [dropLabel] returns the labels as they are
    and the zero label. *)
Theorem dropLabel_absent l name :
  (∀ lb, lb ∈ l → Name lb ≠ name) → dropLabel l name = (l, emptyLabel).
Proof.
  intros Habs. rewrite (surjective_pairing (dropLabel l name)).
  rewrite dropLabel_filter, dropLabel_dropped. f_equal.
  - by apply filter_all.
  - rewrite filter_none; [done|]. intros lb Hlb Hn. by apply (Habs lb).
Qed.

(** On a label set, where names are unique, [dropLabel] on the name of one
    of its labels removes exactly that label and returns it. *)
Theorem dropLabel_present l lb :
  NoDup (Name <$> l) → lb ∈ l →
  (dropLabel l (Name lb)).2 = lb
  ∧ length (dropLabel l (Name lb)).1 = length l - 1
  ∧ ∀ x, x ∈ (dropLabel l (Name lb)).1 ↔ x ∈ l ∧ x ≠ lb.
Proof.
  intros Hnd Hin. rewrite dropLabel_filter, dropLabel_dropped.
  assert (∀ x, x ∈ l → Name x = Name lb → x = lb) as Huniq.
  { intros x Hx Hn. revert Hnd Hin Hx.
    induction l as [|y l IH]; [by intros _ ?%elem_of_nil|].
    rewrite fmap_cons, NoDup_cons.
    intros [Hy Hnd] [->|Hin]%elem_of_cons [->|Hx]%elem_of_cons.
    - done.
    - exfalso. apply Hy. rewrite <- Hn. apply list_elem_of_fmap. by exists x.
    - exfalso. apply Hy. rewrite Hn. apply list_elem_of_fmap. by exists lb.
    - by apply IH. }
  assert (filter (λ x, Name x = Name lb) l = [lb]
          ∧ length (filter (λ x, Name x ≠ Name lb) l) = length l - 1)
    as [Hf Hl].
  { clear Huniq. induction l as [|y l IH]; [by apply elem_of_nil in Hin|].
    rewrite fmap_cons, NoDup_cons in Hnd. destruct Hnd as [Hy Hnd].
    destruct (decide (y = lb)) as [->|Hne].
    - rewrite filter_cons_True by done.
      rewrite filter_cons_False by (intros H; by apply H).
      assert (∀ x, x ∈ l → Name x ≠ Name lb) as Hoth.
      { intros x Hx Hn. apply Hy. rewrite <- Hn.
        apply list_elem_of_fmap. by exists x. }
      rewrite filter_none by (intros x Hx; by apply Hoth).
      rewrite filter_all by done. simpl. split; [done|lia].
    - apply elem_of_cons in Hin as [->|Hin]; [done|].
      destruct (IH Hnd Hin) as [IH1 IH2].
      assert (Name y ≠ Name lb) as Hyn.
      { intros Hn. apply Hy. rewrite Hn. apply list_elem_of_fmap.
        by exists lb. }
      rewrite filter_cons_False by done.
      rewrite filter_cons_True by done. simpl. rewrite IH2.
      split; [done|]. apply list_elem_of_In in Hin. destruct l; [done|].
      simpl. lia. }
  rewrite Hf. split; [done|]. split; [done|].
  intros x. rewrite list_elem_of_filter. split.
  - intros [Hn Hx]. split; [done|]. by intros ->.
  - intros [Hx Hne]. split; [|done]. intros Hn. by apply Hne, Huniq.
Qed.

End DropLabelProperties.

Section DropLabelExamples.

Import function.

(** Witness of [dropLabel_absent]. *)
Lemma dropLabel_absent_witness :
  dropLabel [mkLabel "job" "a"; mkLabel "pod" "b"] "__name__"
  = ([mkLabel "job" "a"; mkLabel "pod" "b"], emptyLabel).
Proof.
  apply (dropLabel_absent [mkLabel "job" "a"; mkLabel "pod" "b"] "__name__").
  intros lb Hlb.
  repeat (apply elem_of_cons in Hlb as [->|Hlb]; [discriminate|]).
  by apply elem_of_nil in Hlb.
Defined.

(** Witness of [dropLabel_present]. *)
Lemma dropLabel_present_witness :
  (DropMetricName [mkLabel "__name__" "up"; mkLabel "job" "a"]).2
  = mkLabel "__name__" "up".
Proof.
  apply (dropLabel_present [mkLabel "__name__" "up"; mkLabel "job" "a"]
           (mkLabel "__name__" "up")).
  - simpl. repeat constructor; intros H;
      repeat (apply elem_of_cons in H as [H|H]; [discriminate|]);
      by apply elem_of_nil in H.
  - left.
Defined.

End DropLabelExamples.

Section NextEdges.

Import function.

Context {platform : Platform}.

Implicit Types (st : state) (vectors : list StepVector).

(** When the vector argument returns an empty batch, [Next] returns an empty
    result at once: no scalar argument is pulled, the other children and
    [scalarPoints] are left as they are. *)
Theorem Next_empty_batch st c :
  seriesLoads st →
  nextOps st !! vectorIndex (op st) = Some c → nextResult c = Ok [] →
  ∃ st', Next None st = (Ok [], st')
         ∧ pulls (trace st') = pulls (trace st) ++ [vectorIndex (op st)]
         ∧ scalarPoints (op st') = scalarPoints (op st)
         ∧ ∀ j, j ≠ vectorIndex (op st) → nextOps st' !! j = nextOps st !! j.
Proof.
  intros Hload Hc Hres.
  destruct (loadSeries_ok st Hload) as (st0&Hls&Hn0&Hvi0&_&Hsp0&Htr0).
  unfold Next, bind. rewrite Hls, Hvi0.
  destruct (callNext_spec (vectorIndex (op st)) st0 c)
    as (st1&Hcn&Hop1&Htr1&_&Hoth1); [by rewrite Hn0|].
  rewrite Hcn, Hres. exists st1. split; [done|]. split_and!.
  - rewrite Htr1. unfold pulls in *. by rewrite omap_app, Htr0.
  - by rewrite Hop1.
  - intros j Hj. by rewrite Hoth1, Hn0.
Qed.

(** [Next] keeps the batch in shape: it returns as many steps as the vector
    argument gave, every returned step is well formed again, holds no
    histogram, and has the timestamp of the step it was made from. *)
Theorem Next_keeps_steps st vectors :
  nextReady st vectors →
  ∃ out st', Next None st = (Ok out, st')
             ∧ Forall wfStep out
             ∧ T <$> out = T <$> vectors
             ∧ Forall (λ s, histogramsOf s = []) out.
Proof.
  intros Hready.
  destruct (Next_ready st vectors Hready) as (out&st'&HN&Hlen&Hout&_).
  exists out, st'. split; [done|].
  assert (∀ b s', out !! b = Some s' →
            ∃ s, vectors !! b = Some s ∧ wfStep s' ∧ histogramsOf s' = []
                 ∧ T s' = T s) as Hback.
  { intros b s' Hs'.
    destruct (lookup_lt_is_Some_2 vectors b) as [s Hs].
    { rewrite <- Hlen. by eapply lookup_lt_Some. }
    destruct (Hout b s Hs) as (s1&Hs1&?&?&?&?). exists s. by simplify_eq/=. }
  split_and!.
  - apply Forall_lookup_2. intros b s' Hs'.
    by destruct (Hback b s' Hs') as (?&?&?&?&?).
  - apply list_eq. intros b. rewrite !list_lookup_fmap.
    destruct (out !! b) as [s'|] eqn:Hs'.
    + destruct (Hback b s' Hs') as (s&->&_&_&HT). simpl. by rewrite HT.
    + apply lookup_ge_None in Hs'. rewrite Hlen in Hs'.
      apply lookup_ge_None in Hs'. by rewrite Hs'.
  - apply Forall_lookup_2. intros b s' Hs'.
    by destruct (Hback b s' Hs') as (?&?&?&?&?).
Qed.

End NextEdges.

Section NextEdgesExamples.

Import function.

(** Witness of [Next_empty_batch]: the second pull on the vector argument of
    [testState] finds it exhausted. *)
Lemma Next_empty_batch_witness :
  ∃ st', Next None (Next None testState).2 = (Ok [], st')
         ∧ pulls (trace st') = [1; 0; 1].
Proof.
  destruct (Next_empty_batch (Next None testState).2
              (mkChild (Ok testSeries) []))
    as (st'&HN&Htr&_).
  - by left.
  - reflexivity.
  - reflexivity.
  - exists st'. split; [exact HN|exact Htr].
Defined.

(** Witness of [Next_keeps_steps]. *)
Lemma Next_keeps_steps_witness :
  ∃ out st', Next None testState = (Ok out, st')
             ∧ T <$> out = [0%Z; 1000%Z].
Proof.
  assert (nextReady testState testVectors) as H.
  { unfold nextReady, seriesLoads; split_and!;
    [ right; right; eexists _, _; split; reflexivity
    | eexists; split; reflexivity
    | discriminate
    | repeat constructor; unfold swf; simpl; lia
    | simpl; lia
    | repeat constructor
    | intros [|[|i]] c Hne Hc; simplify_eq/=;
      eexists; (split; [reflexivity|]); right;
      (split; [simpl; lia|]); repeat constructor; unfold swf; simpl; lia ]. }
  destruct (Next_keeps_steps testState testVectors H) as (out&st'&HN&_&HT&_).
  exists out, st'. split; [exact HN|exact HT].
Defined.

End NextEdgesExamples.

Section ScalarFailures.

Import function.

Context {platform : Platform}.

Implicit Types (st : state) (vectors : list StepVector).

(** The loop over the scalar arguments, cut in two: the second part starts
    where the first ends, if the first succeeds. *)
Lemma pullScalars_app steps : ∀ pre post k st,
  pullScalars (pre ++ post) k steps st
  = match pullScalars pre k steps st with
    | (Ok _, st1) =>
        pullScalars post
          (k + length (filter (λ i, i ≠ vectorIndex (op st)) pre)) steps st1
    | other => other
    end.
Proof.
  induction pre as [|i pre IH]; intros post k st.
  - simpl. by rewrite Nat.add_0_r.
  - cbn [app pullScalars]. rewrite filter_cons. case_decide as Hi.
    + rewrite decide_False by (intros H; by apply H). apply IH.
    + rewrite decide_True by done. unfold bind.
      pose proof (callNext_keeps i st) as _.
      destruct (callNext i st) as [[svs|e|] st1] eqn:Hcall; [|done..].
      destruct (fillScalarPoints _ _ _ _) as [sp|e|]; [|done..].
      rewrite IH. simpl.
      assert (op st1 = op st) as ->.
      { unfold callNext in Hcall. destruct (nextOps st !! i); [|done].
        destruct (childNexts _); by simplify_eq/=. }
      by rewrite Nat.add_succ_r.
Qed.

(** The loop leaves the children it does not visit as they are. *)
Lemma pullScalars_others steps j : ∀ indices k st,
  j ∉ indices →
  nextOps (pullScalars indices k steps st).2 !! j = nextOps st !! j.
Proof.
  induction indices as [|i indices IH]; intros k st Hj; [done|].
  apply not_elem_of_cons in Hj as [Hji Hj]. cbn [pullScalars].
  case_decide; [by apply IH|]. unfold bind.
  assert (nextOps (callNext i st).2 !! j = nextOps st !! j) as Hc.
  { unfold callNext. destruct (nextOps st !! i); [|done].
    destruct (childNexts _); [done|]. simpl.
    by apply list_lookup_insert_ne. }
  destruct (callNext i st) as [[svs|e|] st1]; [|done..]. simpl in Hc.
  destruct (fillScalarPoints _ _ _ _) as [sp|e|]; [|done..].
  rewrite IH by done. done.
Qed.

(** When a scalar argument's [Next] fails, and the arguments before it are
    fine, [Next] fails with the same error; the vector argument and the
    scalar arguments up to the failing one have been pulled, and no argument
    after it. *)
Theorem Next_scalar_failure st vectors i c e :
  seriesLoads st →
  (∃ cv, nextOps st !! vectorIndex (op st) = Some cv
         ∧ nextResult cv = Ok vectors) →
  vectors ≠ [] →
  length vectors ≤ length (scalarPoints (op st)) →
  Forall (λ row, length row = length (nextOps st) - 1) (scalarPoints (op st)) →
  i ≠ vectorIndex (op st) → nextOps st !! i = Some c → nextResult c = Err e →
  (∀ j cj, j < i → j ≠ vectorIndex (op st) → nextOps st !! j = Some cj →
     ∃ svs, nextResult cj = Ok svs ∧ scalarReady (length vectors) svs) →
  ∃ st', Next None st = (Err e, st')
         ∧ pulls (trace st')
           = pulls (trace st)
             ++ vectorIndex (op st)
                :: filter (λ j, j ≠ vectorIndex (op st)) (seq 0 (S i)).
Proof.
  intros Hload (cv&Hcv&Hvec) Hne Hsteps Hshape Hiv Hc He Hbefore.
  destruct (loadSeries_ok st Hload) as (st0&Hls&Hn0&Hvi0&_&Hsp0&Htr0).
  unfold Next, bind. rewrite Hls, Hvi0.
  destruct (callNext_spec (vectorIndex (op st)) st0 cv)
    as (st1&Hcn&Hop1&Htr1&Hlen1&Hoth1); [by rewrite Hn0|].
  rewrite Hcn, Hvec.
  destruct vectors as [|v vs]; [done|]. cbv beta iota.
  set (vectors := v :: vs) in *.
  set (vi := vectorIndex (op st)) in *.
  set (m := length (nextOps st)).
  pose proof (lookup_lt_Some _ _ _ Hc) as Him. fold m in Him.
  pose proof (lookup_lt_Some _ _ _ Hcv) as Hvim. fold m in Hvim.
  assert (seq 0 (length (nextOps st1)) = seq 0 i ++ i :: seq (S i) (m - S i))
    as ->.
  { rewrite Hlen1, Hn0. fold m. replace m with (i + S (m - S i)) at 1 by lia.
    by rewrite seq_app. }
  rewrite pullScalars_app.
  assert (vectorIndex (op st1) = vi) as Hvi1 by (by rewrite Hop1, Hvi0).
  destruct (pullScalars_spec (length vectors) (seq 0 i) 0 st1)
    as (st2&sp'&Hps&Hop2&Htr2&_).
  { apply NoDup_seq. }
  { rewrite Hvi1. intros j Hj%elem_of_seq Hjv.
    destruct (lookup_lt_is_Some_2 (nextOps st) j) as [cj Hcj];
      [unfold m in *; lia|].
    destruct (Hbefore j cj) as (svs&?&?); [lia|done..|].
    exists cj, svs. by rewrite Hoth1, Hn0. }
  { by rewrite Hop1, Hsp0. }
  { rewrite Hvi1, Hop1, Hsp0. intros b row _ Hrow.
    pose proof (Forall_lookup_1 _ _ _ _ Hshape Hrow) as Hr. simpl in Hr.
    fold m in Hr.
    rewrite (scalarBatches_length _ _ (length vectors)).
    - rewrite filter_ne_seq_length. case_decide; lia.
    - intros j Hj%elem_of_seq Hjv.
      destruct (lookup_lt_is_Some_2 (nextOps st) j) as [cj Hcj];
        [unfold m in *; lia|].
      destruct (Hbefore j cj) as (svs&?&?); [lia|done..|].
      exists cj, svs. by rewrite Hoth1, Hn0. }
  rewrite Hps. cbn [pullScalars].
  assert (vectorIndex (op st2) = vi) as Hvi2 by (by rewrite Hop2).
  rewrite decide_False by (by rewrite Hvi2).
  assert (nextOps st2 !! i = Some c) as Hc2.
  { pose proof (pullScalars_others (length vectors) i (seq 0 i) 0 st1) as Ho.
    rewrite Hps in Ho. simpl in Ho. rewrite Ho.
    - by rewrite Hoth1, Hn0.
    - intros Hin%elem_of_seq. lia. }
  destruct (callNext_spec i st2 c Hc2) as (st3&Hcn3&_&Htr3&_).
  unfold bind. rewrite Hcn3, He. exists st3. split; [done|].
  rewrite Htr3, Htr2, Htr1, Hvi1. unfold pulls in *.
  rewrite !omap_app, Htr0.
  fold (pulls (EvNext <$> filter (λ j, j ≠ vi) (seq 0 i))).
  rewrite pulls_EvNext. rewrite seq_S, filter_app.
  rewrite filter_cons_True by done. cbn [omap list_omap filter list_filter].
  rewrite Nat.add_0_l. by rewrite <- !app_assoc.
Qed.

Lemma fillScalarPoints_app svs k pre : ∀ post sp,
  fillScalarPoints svs k (pre ++ post) sp
  = match fillScalarPoints svs k pre sp with
    | Ok sp1 => fillScalarPoints svs k post sp1
    | other => other
    end.
Proof.
  induction pre as [|b pre IH]; intros post sp; [done|]. simpl.
  destruct (scalarValue svs b); [|done..].
  destruct (setScalarPoint sp b k a); [|done..]. apply IH.
Qed.

(** A scalar batch that is not empty but shorter than the vector batch makes
    the loop over the steps index past its end. *)
Lemma fillScalarPoints_short svs k steps sp :
  0 < length svs < steps → Forall (λ sv, swf (Samples sv)) svs →
  (∀ b, b < length svs → ∃ row, sp !! b = Some row ∧ k < length row) →
  fillScalarPoints svs k (seq 0 steps) sp = Panic.
Proof.
  intros Hlen Hwf Hrows.
  replace steps with (length svs + S (steps - S (length svs))) by lia.
  rewrite seq_app, fillScalarPoints_app.
  destruct (fillScalarPoints_spec (length svs) svs k) with
    (bs := seq 0 (length svs)) (sp := sp) as (sp1&->&_).
  { right. split; [lia|done]. }
  { intros b Hb%elem_of_seq. split; [lia|]. apply Hrows. lia. }
  simpl. unfold scalarValue. rewrite decide_True by lia.
  by rewrite lookup_ge_None_2 by lia.
Qed.

Lemma overwriteRow_length (row vals : list float64) k :
  k + length vals ≤ length row →
  length (overwriteRow row k vals) = length row.
Proof.
  intros H. unfold overwriteRow.
  rewrite !length_app, length_take, length_drop. lia.
Qed.

(** When a scalar argument returns a batch that is not empty and has fewer
    steps than the vector batch, and the arguments before it are fine,
    [Next] panics: it indexes the scalar batch by the vector batch's steps. *)
Theorem Next_short_scalar_batch st vectors i c svs :
  seriesLoads st →
  (∃ cv, nextOps st !! vectorIndex (op st) = Some cv
         ∧ nextResult cv = Ok vectors) →
  length vectors ≤ length (scalarPoints (op st)) →
  Forall (λ row, length row = length (nextOps st) - 1) (scalarPoints (op st)) →
  i ≠ vectorIndex (op st) → nextOps st !! i = Some c →
  nextResult c = Ok svs → 0 < length svs < length vectors →
  Forall (λ sv, swf (Samples sv)) svs →
  (∀ j cj, j < i → j ≠ vectorIndex (op st) → nextOps st !! j = Some cj →
     ∃ svs', nextResult cj = Ok svs' ∧ scalarReady (length vectors) svs') →
  ∃ st', Next None st = (Panic, st').
Proof.
  intros Hload (cv&Hcv&Hvec) Hsteps Hshape Hiv Hc Hres Hshort Hwf Hbefore.
  destruct (loadSeries_ok st Hload) as (st0&Hls&Hn0&Hvi0&_&Hsp0&Htr0).
  unfold Next, bind. rewrite Hls, Hvi0.
  destruct (callNext_spec (vectorIndex (op st)) st0 cv)
    as (st1&Hcn&Hop1&Htr1&Hlen1&Hoth1); [by rewrite Hn0|].
  rewrite Hcn, Hvec.
  destruct vectors as [|v vs]; [simpl in *; lia|]. cbv beta iota.
  set (vectors := v :: vs) in *.
  set (vi := vectorIndex (op st)) in *.
  set (m := length (nextOps st)).
  pose proof (lookup_lt_Some _ _ _ Hc) as Him. fold m in Him.
  pose proof (lookup_lt_Some _ _ _ Hcv) as Hvim. fold m in Hvim.
  assert (seq 0 (length (nextOps st1)) = seq 0 i ++ i :: seq (S i) (m - S i))
    as ->.
  { rewrite Hlen1, Hn0. fold m. replace m with (i + S (m - S i)) at 1 by lia.
    by rewrite seq_app. }
  rewrite pullScalars_app.
  assert (vectorIndex (op st1) = vi) as Hvi1 by (by rewrite Hop1, Hvi0).
  assert (∀ j, j ∈ seq 0 i → j ≠ vi →
            ∃ cj svs', nextOps st1 !! j = Some cj ∧ nextResult cj = Ok svs'
                       ∧ scalarReady (length vectors) svs') as Hpre.
  { intros j Hj%elem_of_seq Hjv.
    destruct (lookup_lt_is_Some_2 (nextOps st) j) as [cj Hcj];
      [unfold m in *; lia|].
    destruct (Hbefore j cj) as (svs'&?&?); [lia|done..|].
    exists cj, svs'. by rewrite Hoth1, Hn0. }
  assert (length (scalarBatches (nextOps st1) vi (seq 0 i))
          = i - (if decide (0 ≤ vi < 0 + i) then 1 else 0)) as Hcount.
  { rewrite (scalarBatches_length _ _ (length vectors)) by done.
    apply filter_ne_seq_length. }
  destruct (pullScalars_spec (length vectors) (seq 0 i) 0 st1)
    as (st2&sp'&Hps&Hop2&Htr2&Hlen2&Hsp2).
  { apply NoDup_seq. }
  { by rewrite Hvi1. }
  { by rewrite Hop1, Hsp0. }
  { rewrite Hvi1, Hop1, Hsp0, Hcount. intros b row _ Hrow.
    pose proof (Forall_lookup_1 _ _ _ _ Hshape Hrow) as Hr. simpl in Hr.
    fold m in Hr. case_decide; lia. }
  rewrite Hps. cbn [pullScalars].
  assert (vectorIndex (op st2) = vi) as Hvi2 by (by rewrite Hop2).
  rewrite decide_False by (by rewrite Hvi2).
  assert (nextOps st2 !! i = Some c) as Hc2.
  { pose proof (pullScalars_others (length vectors) i (seq 0 i) 0 st1) as Ho.
    rewrite Hps in Ho. simpl in Ho. rewrite Ho.
    - by rewrite Hoth1, Hn0.
    - intros Hin%elem_of_seq. lia. }
  destruct (callNext_spec i st2 c Hc2) as (st3&Hcn3&Hop3&_).
  unfold bind. rewrite Hcn3, Hres. exists st3.
  rewrite fillScalarPoints_short; [done|done|done|].
  intros b Hb. rewrite Hop3, Hop2. cbn [scalarPoints setScalarPoints].
  rewrite ?Hop1, ?Hsp0, ?Hvi1 in Hsp2. rewrite ?Hop1, ?Hsp0 in Hlen2.
  destruct (lookup_lt_is_Some_2 (scalarPoints (op st)) b) as [row Hrow];
    [lia|].
  pose proof (Forall_lookup_1 _ _ _ _ Hshape Hrow) as Hr. simpl in Hr.
  fold m in Hr.
  rewrite (Hsp2 b row ltac:(lia) Hrow). eexists. split; [done|].
  rewrite ?Hvi0 in *. fold vi in Hcount |- *.
  rewrite Hvi1, filter_ne_seq_length, overwriteRow_length.
  - case_decide; lia.
  - rewrite length_fmap, Hcount. case_decide; lia.
Qed.

End ScalarFailures.

Section ScalarFailuresExamples.

Import function.

(** Witness of [Next_scalar_failure]. *)
Lemma Next_scalar_failure_witness :
  ∃ st', Next None failingScalarState = (Err "scalar failed", st')
         ∧ pulls (trace st') = [1; 0].
Proof.
  destruct (Next_scalar_failure failingScalarState testVectors 0
              (mkChild (Ok []) [Err "scalar failed"]) "scalar failed")
    as (st'&HN&Htr).
  - right. right. eexists _, _. split; reflexivity.
  - eexists. split; reflexivity.
  - discriminate.
  - simpl. lia.
  - repeat constructor.
  - discriminate.
  - reflexivity.
  - reflexivity.
  - intros j cj Hj. lia.
  - exists st'. split; [exact HN|exact Htr].
Defined.

(** Witness of [Next_short_scalar_batch]. *)
Lemma Next_short_scalar_batch_witness :
  ∃ st', Next None shortScalarState = (Panic, st').
Proof.
  apply (Next_short_scalar_batch shortScalarState testVectors 0
           (mkChild (Ok []) [Ok [testStep 0 [(0%N, Some 10%Z)] []]])
           [testStep 0 [(0%N, Some 10%Z)] []]).
  - right. right. eexists _, _. split; reflexivity.
  - eexists. split; reflexivity.
  - simpl. lia.
  - repeat constructor.
  - discriminate.
  - reflexivity.
  - reflexivity.
  - simpl. lia.
  - repeat constructor.
  - intros j cj Hj. lia.
Defined.

End ScalarFailuresExamples.

Section ConstructorShape.

Import function.

Context {platform : Platform} {builtins : Builtins} {machine : Machine}.

Implicit Types (fe : Call) (ops : list child) (batch : Z) (opts : Options).

(** The search for the vector argument finds the first argument typed as an
    instant vector. *)
Lemma findVectorArg_spec args : ∀ i0,
  match findVectorArg args i0 with
  | Some i => i0 ≤ i ∧ args !! (i - i0) = Some ValueTypeVector
              ∧ ∀ j, j < i - i0 → args !! j ≠ Some ValueTypeVector
  | None => ValueTypeVector ∉ args
  end.
Proof.
  induction args as [|a args IH]; intros i0; simpl.
  - apply not_elem_of_nil.
  - case_decide as Ha.
    + subst. rewrite Nat.sub_diag. split_and!; [lia|done|]. intros j Hj. lia.
    + specialize (IH (S i0)). destruct (findVectorArg args (S i0)) as [i|].
      * destruct IH as (Hle&Hi&Hbefore). split; [lia|].
        replace (i - i0) with (S (i - S i0)) by lia. split; [done|].
        intros [|j] Hj; simpl; [congruence|]. apply Hbefore. lia.
      * intros [?|?]%elem_of_cons; [congruence|done].
Qed.

Lemma makesliceOk_true (elemSize n : Z) :
  makesliceOk elemSize n = true ↔ (0 ≤ n ∧ n * elemSize ≤ maxAlloc)%Z.
Proof. unfold makesliceOk. by rewrite andb_true_iff, !Z.leb_le. Qed.

Lemma makesliceOk_false (elemSize n : Z) :
  makesliceOk elemSize n = false ↔ (n < 0 ∨ maxAlloc < n * elemSize)%Z.
Proof. unfold makesliceOk. by rewrite andb_false_iff, !Z.leb_gt. Qed.

Lemma instantVectorOperator_shape fe ops batch opts r :
  newInstantVectorFunctionOperator fe ops batch opts = Ok r →
  ∃ o c, r = instantVectorOperator o ops
       ∧ (instantVectorFuncs !! FuncName fe) = Some c ∧ call o = c
       ∧ funcExpr o = fe ∧ once o = false ∧ series o = []
       ∧ length (scalarPoints o) = Z.to_nat batch
       ∧ Forall (λ row, length row = length ops - 1) (scalarPoints o).
Proof.
  unfold newInstantVectorFunctionOperator. intros H.
  destruct (instantVectorFuncs !! FuncName fe) as [c|]; [|done].
  destruct (makesliceOk _ batch); [|done]. cbn [negb] in H.
  destruct (_ && _); [done|].
  destruct (Args fe !! _) as [[]|]; simplify_eq/=;
    eexists _, c; (split; [done|]); simpl; split_and!; try done;
    try (by rewrite length_replicate);
    apply Forall_replicate; by rewrite length_replicate.
Qed.

(** The vector index of the general operator, as built, is the position of
    the first argument typed as an instant vector, or 0, the position of a
    scalar, when no argument is typed as an instant vector. *)
Theorem newInstantVectorFunctionOperator_vector_index fe ops batch opts o ops' :
  newInstantVectorFunctionOperator fe ops batch opts
  = Ok (instantVectorOperator o ops') →
  (Args fe !! vectorIndex o = Some ValueTypeVector
   ∧ ∀ j, j < vectorIndex o → Args fe !! j ≠ Some ValueTypeVector)
  ∨ (vectorIndex o = 0 ∧ (ValueTypeVector ∉ Args fe)
     ∧ Args fe !! 0 = Some ValueTypeScalar).
Proof.
  unfold newInstantVectorFunctionOperator. intros H.
  destruct (instantVectorFuncs !! FuncName fe) as [c|]; [|done].
  destruct (makesliceOk _ batch); [|done]. cbn [negb] in H.
  destruct (_ && _); [done|].
  pose proof (findVectorArg_spec (Args fe) 0) as Hfind.
  destruct (findVectorArg (Args fe) 0) as [i|]; simpl in H.
  - destruct Hfind as (_&Hi&Hbefore). rewrite Nat.sub_0_r in Hi.
    rewrite Hi in H. simplify_eq/=.
    left. split; [done|]. intros j Hj. apply Hbefore. lia.
  - destruct (Args fe !! 0) as [[]|] eqn:H0; simplify_eq/=.
    + exfalso. apply Hfind. by eapply list_elem_of_lookup_2.
    + by right.
Qed.

(** The general operator, as built, is ready for its first [Next]: when its
    vector argument gives its series and a well-formed batch of no more
    steps than the batch size it was built for, and the other arguments
    return batches aligned with that batch, [Next] succeeds on it and runs
    the load: the operator then holds the vector argument's series with the
    metric-name label dropped from every label set (a single empty label
    set for [vector]), got with one [Series] call on the argument (none for
    [vector]), and a [Series] call that follows returns this array and
    leaves the operator as it is. *)
Theorem built_operator_ready fe ops batch opts o vectors cv ss :
  newInstantVectorFunctionOperator fe ops batch opts
  = Ok (instantVectorOperator o ops) →
  ops !! vectorIndex o = Some cv → childSeries cv = Ok ss →
  nextResult cv = Ok vectors → vectors ≠ [] → Forall wfStep vectors →
  length vectors ≤ Z.to_nat batch →
  (∀ i c, i ≠ vectorIndex o → ops !! i = Some c →
     ∃ svs, nextResult c = Ok svs ∧ scalarReady (length vectors) svs) →
  nextReady (mkState o ops []) vectors
  ∧ ∃ out st', Next None (mkState o ops []) = (Ok out, st')
               ∧ length out = length vectors
               ∧ once (op st') = true
               ∧ series (op st')
                 = (if String.eqb (FuncName fe) "vector" then [[]]
                    else (λ l, filter (λ lb, Name lb ≠ MetricName) l) <$> ss)
               ∧ seriesCalls (trace st')
                 = (if String.eqb (FuncName fe) "vector" then 0 else 1)
               ∧ Series st' = (Ok (series (op st')), st').
Proof.
  intros Hnew Hcv Hss Hvec Hne Hwf Hlen Hscalars.
  destruct (instantVectorOperator_shape _ _ _ _ _ Hnew)
    as (o'&c&Heq&_&_&Hfe&Honce&_&Hl&Hrows).
  simplify_eq/=. set (st := mkState o' ops []).
  assert (nextReady st vectors) as Hready.
  { unfold nextReady, seriesLoads. simpl. split_and!; try done.
    - right. right. by exists cv, ss.
    - by exists cv.
    - lia. }
  split; [done|].
  destruct (Next_ready _ _ Hready) as (out&st'&HN&Hout&_).
  exists out, st'. split; [done|]. split; [done|].
  assert (∃ st0, loadSeries st = (Ok tt, st0)
                 ∧ series (op st0)
                   = (if String.eqb (FuncName (funcExpr o')) "vector"
                      then [[]]
                      else (λ l, filter (λ lb, Name lb ≠ MetricName) l)
                             <$> ss)
                 ∧ seriesCalls (trace st0)
                   = (if String.eqb (FuncName (funcExpr o')) "vector"
                      then 0 else 1)) as (st0&Hls&Hs0&Hn0).
  { destruct (String.eqb_spec (FuncName (funcExpr o')) "vector")
      as [Hname|Hname].
    - destruct (loadSeries_fresh_vector st st (sameLoad_refl st) Honce Hname)
        as (st0&?&?&?&_). by exists st0.
    - destruct (loadSeries_fresh st st cv ss (sameLoad_refl st) Honce Hname
                  Hcv Hss) as (st0&?&?&?&_). by exists st0. }
  pose proof (loadSeries_once st) as Ho0. rewrite Hls in Ho0.
  cbn [snd] in Ho0.
  pose proof (Next_state st) as Hst. rewrite HN, Hls in Hst. cbn [snd] in Hst.
  destruct (Next_keeps None st0 Ho0) as (Hks&Hko&Hkn).
  rewrite <- Hst in Hks, Hko, Hkn.
  split; [congruence|]. split; [congruence|]. split; [congruence|].
  apply Series_loaded. congruence.
Qed.

(** For a name of the instant-vector table with no argument typed as an
    instant vector: without any argument expression the constructor
    panics; with a first argument that is no scalar either, it returns the
    not implemented error, wrapped with the text of the call, provided the
    rows of [scalarPoints] can be made: the batch size is not negative and
    that many rows are within the allocation limit, and, when the batch
    size is positive, there is an operator input and a row is within the
    limit. *)
Theorem newInstantVectorFunctionOperator_rejects fe ops batch opts c :
  instantVectorFuncs !! FuncName fe = Some c → ValueTypeVector ∉ Args fe →
  match Args fe with
  | [] => newInstantVectorFunctionOperator fe ops batch opts = Panic
  | t :: _ =>
      t ≠ ValueTypeScalar →
      (0 ≤ batch)%Z → (batch * (3 * wordSize) ≤ maxAlloc)%Z →
      ((0 < batch)%Z →
       ops ≠ [] ∧ ((Z.of_nat (length ops) - 1) * 8 ≤ maxAlloc)%Z) →
      newInstantVectorFunctionOperator fe ops batch opts
      = Err ("got " +:+ callString fe +:+ ":: " +:+ ErrNotImplemented)
  end.
Proof.
  intros Hc Hnov. unfold newInstantVectorFunctionOperator. rewrite Hc.
  pose proof (findVectorArg_spec (Args fe) 0) as Hfind.
  destruct (findVectorArg (Args fe) 0) as [i|].
  { destruct Hfind as (_&Hi&_). exfalso. apply Hnov.
    by eapply list_elem_of_lookup_2. }
  cbn [default]. destruct (Args fe) as [|t args].
  - destruct (negb _); [done|]. by destruct (_ && _).
  - intros Ht Hb Hrows Hops.
    rewrite (proj2 (makesliceOk_true _ _)) by done. cbn [negb].
    assert ((0 <? batch)%Z
            && negb (makesliceOk 8 (Z.of_nat (length ops) - 1)) = false)
      as ->.
    { destruct (Z.ltb_spec 0 batch) as [Hpos|]; [|done]. cbn [andb].
      destruct (Hops Hpos) as [Hnil Hrow].
      rewrite (proj2 (makesliceOk_true _ _)); [done|].
      split; [|done]. destruct ops; [done|]. simpl length. lia. }
    cbn [lookup list_lookup]. destruct t; try done.
    exfalso. apply Hnov. left.
Qed.

(** A specially dispatched name never reaches the dispatch tables and
    never gets an error: the constructor returns the special operator of
    that name or panics. It panics without any operator input, and returns
    the operator when it has two inputs and the batch size is not negative
    and that many values are within the allocation limit (the array
    [histogram_quantile] makes). *)
Theorem NewFunctionOperator_special fe ops batch opts :
  FuncName fe ∈ specialNames →
  (ops = [] → NewFunctionOperator fe ops batch opts = Panic)
  ∧ (∀ r, NewFunctionOperator fe ops batch opts = Ok r →
          FuncName fe ∈ specialOperatorName r)
  ∧ (∀ e, NewFunctionOperator fe ops batch opts ≠ Err e)
  ∧ (length ops ≥ 2 → (0 ≤ batch)%Z → (batch * 8 ≤ maxAlloc)%Z →
     ∃ r, NewFunctionOperator fe ops batch opts = Ok r).
Proof.
  intros Hn. unfold NewFunctionOperator, specialNames in *.
  repeat (apply elem_of_cons in Hn as [->|Hn]);
    [..|by apply elem_of_nil in Hn]; simpl;
    (split_and!;
     [ by intros ->
     | intros r Hr; repeat case_match; simplify_eq/=;
       repeat first [by left | right]
     | intros e He; by repeat case_match
     | intros Hl Hb Hm;
       pose proof (proj2 (makesliceOk_true 8 batch) (conj Hb Hm)) as Hmk;
       destruct ops as [|c1 [|c2 ops]]; simpl in *; try lia;
       rewrite ?Hmk; by eauto ]).
Qed.

(** A name in the no-argument table, called without operator inputs, gets
    the no-argument operator with the table's function; it has no series
    array for [pi] and [time] and a single empty label set otherwise. *)
Theorem NewFunctionOperator_no_args fe batch opts c :
  FuncName fe ∉ specialNames → noArgFuncs !! FuncName fe = Some c →
  ∃ o, NewFunctionOperator fe [] batch opts = Ok (noArgOperator o)
       ∧ naCall o = c ∧ naFuncExpr o = fe ∧ stepsBatch o = batch
       ∧ naSeries o
         = if bool_decide (FuncName fe ∈ ["pi"; "time"]) then None
           else Some [[]].
Proof.
  intros Hn Hc. rewrite NewFunctionOperator_general by done. simpl.
  unfold newNoArgsFunctionOperator. rewrite Hc.
  destruct (String.eqb_spec (FuncName fe) "pi") as [Hpi|Hpi];
    destruct (String.eqb_spec (FuncName fe) "time") as [Ht|Ht]; simpl;
    eexists; (split; [done|]); simpl; split_and!; try done.
  - rewrite bool_decide_eq_true_2; [done|]. rewrite Hpi. left.
  - rewrite bool_decide_eq_true_2; [done|]. rewrite Hpi. left.
  - rewrite bool_decide_eq_true_2; [done|]. rewrite Ht. right. left.
  - rewrite bool_decide_eq_false_2; [done|].
    intros [?|[?|?%elem_of_nil]%elem_of_cons]%elem_of_cons; done.
Qed.

End ConstructorShape.

Section ConstructorShapeExamples.

Import function.

Local Open Scope Z_scope.

(** Witness of [newInstantVectorFunctionOperator_vector_index]:
    [abs(10, v)]. *)
Lemma newInstantVectorFunctionOperator_vector_index_witness :
  ∃ o, (Args (funcExpr o) !! vectorIndex o = Some ValueTypeVector
        ∧ ∀ j, (j < vectorIndex o)%nat →
               Args (funcExpr o) !! j ≠ Some ValueTypeVector)
       ∨ (vectorIndex o = 0%nat ∧ (ValueTypeVector ∉ Args (funcExpr o))
          ∧ Args (funcExpr o) !! 0%nat = Some ValueTypeScalar).
Proof.
  assert (∃ o, newInstantVectorFunctionOperator
                 (mkCall "abs" [ValueTypeScalar; ValueTypeVector] "abs(10, v)")
                 (nextOps testState) 2 (testOptions 0 10000 5000000000)
               = Ok (instantVectorOperator o (nextOps testState))
               ∧ funcExpr o
                 = mkCall "abs" [ValueTypeScalar; ValueTypeVector] "abs(10, v)")
    as (o&Ho&Hfe) by (eexists; split; reflexivity).
  exists o. rewrite Hfe.
  exact (newInstantVectorFunctionOperator_vector_index _ _ _ _ _ _ Ho).
Defined.

(** Witness of [built_operator_ready]: [abs(10, v)], built and pulled. *)
Lemma built_operator_ready_witness :
  ∃ o out st', Next None (mkState o (nextOps testState) []) = (Ok out, st')
               ∧ length out = 2%nat
               ∧ series (op st') = [[mkLabel "job" "a"]; []].
Proof.
  assert (∃ o, newInstantVectorFunctionOperator
                 (mkCall "abs" [ValueTypeScalar; ValueTypeVector] "abs(10, v)")
                 (nextOps testState) 2 (testOptions 0 10000 5000000000)
               = Ok (instantVectorOperator o (nextOps testState))
               ∧ vectorIndex o = 1%nat)
    as (o&Ho&Hvi) by (eexists; split; reflexivity).
  destruct (built_operator_ready _ _ _ _ o testVectors
              (mkChild (Ok testSeries) [Ok testVectors]) testSeries Ho)
    as (_&out&st'&HN&Hl&_&Hs&_).
  - by rewrite Hvi.
  - reflexivity.
  - reflexivity.
  - discriminate.
  - repeat constructor; unfold swf; simpl; lia.
  - simpl. lia.
  - rewrite Hvi. intros [|[|i]] c Hne Hc; simplify_eq/=.
    eexists. split; [reflexivity|]. right. split; [simpl; lia|].
    repeat constructor.
  - exists o, out, st'. split; [exact HN|]. split; [exact Hl|exact Hs].
Defined.

(** Witness of [newInstantVectorFunctionOperator_rejects]: a function of
    the table called on a range vector. *)
Lemma newInstantVectorFunctionOperator_rejects_witness :
  newInstantVectorFunctionOperator
    (mkCall "abs" [ValueTypeMatrix] "abs(m[5m])")
    (nextOps histogramOnlyState) 2 (testOptions 0 10000 5000000000)
  = Err "got abs(m[5m]):: expression not implemented".
Proof.
  assert (∃ c, instantVectorFuncs !! "abs"%string = Some c) as [c Hc]
    by (eexists; reflexivity).
  refine (newInstantVectorFunctionOperator_rejects
            (mkCall "abs" [ValueTypeMatrix] "abs(m[5m])")
            (nextOps histogramOnlyState) 2 (testOptions 0 10000 5000000000)
            c Hc _ _ _ _ _).
  - simpl. intros H.
    repeat (apply elem_of_cons in H as [H|H]; [discriminate|]).
    by apply elem_of_nil in H.
  - discriminate.
  - lia.
  - by vm_compute.
  - intros _. split; [discriminate|by vm_compute].
Defined.

(** Witness of [NewFunctionOperator_special]: [histogram_quantile] with
    its two inputs. *)
Lemma NewFunctionOperator_special_witness :
  ∃ r, NewFunctionOperator
         (mkCall "histogram_quantile" [ValueTypeScalar; ValueTypeVector]
                 "histogram_quantile(0.9, v)")
         (nextOps testState) 10 (testOptions 0 10000 5000000000)
       = Ok r.
Proof.
  destruct (NewFunctionOperator_special
              (mkCall "histogram_quantile" [ValueTypeScalar; ValueTypeVector]
                      "histogram_quantile(0.9, v)")
              (nextOps testState) 10 (testOptions 0 10000 5000000000))
    as (_&_&_&H).
  - unfold specialNames. do 4 right. left.
  - apply H; [simpl; lia|lia|by vm_compute].
Defined.

(** Witness of [NewFunctionOperator_no_args]: [time()]. *)
Lemma NewFunctionOperator_no_args_witness :
  ∃ o, NewFunctionOperator (mkCall "time" [] "time()") [] 10
         (testOptions 0 10000 5000000000) = Ok (noArgOperator o)
       ∧ naSeries o = None.
Proof.
  assert (∃ c, noArgFuncs !! "time"%string = Some c) as [c Hc]
    by (eexists; reflexivity).
  destruct (NewFunctionOperator_no_args (mkCall "time" [] "time()") 10
              (testOptions 0 10000 5000000000) c) as (o&Ho&_&_&_&Hs).
  - unfold specialNames. simpl. intros H.
    repeat (apply elem_of_cons in H as [H|H]; [discriminate|]).
    by apply elem_of_nil in H.
  - exact Hc.
  - exists o. split; [exact Ho|exact Hs].
Defined.

End ConstructorShapeExamples.

Section LoadFailures.

Import function.

Context {platform : Platform}.

Implicit Types (st : state).

(** A failure of the vector argument's [Series] is reported once: the
    [Series] call that runs the load returns the error and pulls no child;
    after it, whatever calls of [Series] and [Next] follow, [Series] returns
    the array the operator held before the load, without an error, and the
    argument's [Series] is not called again. *)
Theorem Series_failure_reported_once st c e :
  once (op st) = false → FuncName (funcExpr (op st)) ≠ "vector" →
  nextOps st !! vectorIndex (op st) = Some c → childSeries c = Err e →
  ∃ st1,
    Series st = (Err e, st1)
    ∧ pulls (trace st1) = pulls (trace st)
    ∧ ∀ calls,
        Series (runCalls calls st1)
        = (Ok (series (op st)), runCalls calls st1)
        ∧ seriesCalls (trace (runCalls calls st1))
          = S (seriesCalls (trace st)).
Proof.
  intros Honce Hname%String.eqb_neq Hc He.
  unfold Series at 1, bind, loadSeries, callSeries.
  rewrite Honce, Hname, Hc, He. eexists. split; [done|]. split.
  { simpl. unfold pulls. rewrite omap_app. simpl. by rewrite app_nil_r. }
  intros calls.
  match goal with
  | |- context [runCalls calls ?s] =>
      destruct (runCalls_keeps calls s eq_refl) as (Hs&Ho&Hn)
  end.
  rewrite Series_loaded by (by rewrite Ho). rewrite Hs, Hn. simpl.
  split; [done|]. unfold seriesCalls. rewrite filter_app, length_app.
  simpl. lia.
Qed.

(** A failure of the vector argument's [Next] is returned as it is: the
    vector argument is the only child pulled, and [scalarPoints] is left as
    it is. *)
Theorem Next_vector_argument_failure st c e :
  seriesLoads st →
  nextOps st !! vectorIndex (op st) = Some c → nextResult c = Err e →
  ∃ st', Next None st = (Err e, st')
         ∧ pulls (trace st') = pulls (trace st) ++ [vectorIndex (op st)]
         ∧ scalarPoints (op st') = scalarPoints (op st).
Proof.
  intros Hload Hc He.
  destruct (loadSeries_ok st Hload) as (st0&Hls&Hn0&Hvi0&_&Hsp0&Htr0).
  unfold Next, bind. rewrite Hls, Hvi0.
  destruct (callNext_spec (vectorIndex (op st)) st0 c)
    as (st1&Hcn&Hop1&Htr1&_); [by rewrite Hn0|].
  rewrite Hcn, He. exists st1. split; [done|]. split.
  - rewrite Htr1. unfold pulls in *. by rewrite omap_app, Htr0.
  - by rewrite Hop1.
Qed.

End LoadFailures.

Section LoadFailuresExamples.

Import function.

(** Witness of [Series_failure_reported_once]: [abs(v)] over an argument
    whose [Series] fails, asked for its series again after a [Next]. *)
Lemma Series_failure_reported_once_witness :
  ∃ st1, Series failingSeriesState = (Err "series failed", st1)
         ∧ Series (runCalls [CallNext None] st1)
           = (Ok [], runCalls [CallNext None] st1).
Proof.
  destruct (Series_failure_reported_once failingSeriesState
              (mkChild (Err "series failed") [Ok [histogramOnlyStep]])
              "series failed")
    as (st1&HS&_&Hafter).
  - reflexivity.
  - simpl. discriminate.
  - reflexivity.
  - reflexivity.
  - exists st1. split; [exact HS|]. exact (proj1 (Hafter [CallNext None])).
Defined.

(** Witness of [Next_vector_argument_failure]: [abs(10, v)] over a vector
    argument whose [Next] fails. *)
Lemma Next_vector_argument_failure_witness :
  ∃ st', Next None
           (mkState (op testState)
                    [mkChild (Ok []) [Ok testScalars];
                     mkChild (Ok testSeries) [Err "vector failed"]] [])
         = (Err "vector failed", st')
         ∧ pulls (trace st') = [1].
Proof.
  destruct (Next_vector_argument_failure
              (mkState (op testState)
                       [mkChild (Ok []) [Ok testScalars];
                        mkChild (Ok testSeries) [Err "vector failed"]] [])
              (mkChild (Ok testSeries) [Err "vector failed"])
              "vector failed")
    as (st'&HN&Hp&_).
  - right. right. eexists _, _. split; reflexivity.
  - reflexivity.
  - reflexivity.
  - exists st'. split; [exact HN|exact Hp].
Defined.

End LoadFailuresExamples.

Section ShapeInvariant.

Import function.

Context {platform : Platform}.

Implicit Types (st : state) (sp : list (list float64)).

Lemma keepsShape_refl st : keepsShape st st.
Proof. done. Qed.

Lemma keepsShape_trans st1 st2 st3 :
  keepsShape st1 st2 → keepsShape st2 st3 → keepsShape st1 st3.
Proof.
  unfold keepsShape. intros (?&?&?&?&?) (?&?&?&?&?). split_and!; congruence.
Qed.

Lemma setScalarPoint_shape sp b k v sp' :
  setScalarPoint sp b k v = Ok sp' → length <$> sp' = length <$> sp.
Proof.
  unfold setScalarPoint. destruct (sp !! b) as [row|] eqn:Hrow; [|done].
  case_decide; [|done]. intros [= <-].
  rewrite list_fmap_insert, length_insert. apply list_insert_id.
  by rewrite list_lookup_fmap, Hrow.
Qed.

Lemma fillScalarPoints_shape svs k : ∀ bs sp sp',
  fillScalarPoints svs k bs sp = Ok sp' → length <$> sp' = length <$> sp.
Proof.
  induction bs as [|b bs IH]; intros sp sp' H; simpl in H.
  - by simplify_eq/=.
  - destruct (scalarValue svs b) as [v| |]; [|done..].
    destruct (setScalarPoint sp b k v) as [sp1| |] eqn:Hset; [|done..].
    rewrite (IH _ _ H). by eapply setScalarPoint_shape.
Qed.

Lemma callNext_shape i st : keepsShape st (callNext i st).2.
Proof.
  unfold callNext. destruct (nextOps st !! i) as [c|]; [|done].
  destruct (childNexts c); unfold keepsShape; simpl; [done|].
  by rewrite length_insert.
Qed.

Lemma loadSeries_shape st : keepsShape st (loadSeries st).2.
Proof.
  unfold loadSeries, callSeries. destruct (once (op st)); [done|].
  destruct (String.eqb _ _); [done|].
  destruct (nextOps st !! _) as [c|]; [|done].
  by destruct (childSeries c).
Qed.

Lemma pullScalars_shape steps : ∀ indices k st,
  keepsShape st (pullScalars indices k steps st).2.
Proof.
  induction indices as [|i indices IH]; intros k st; [done|].
  cbn [pullScalars]. case_decide; [apply IH|]. unfold bind.
  pose proof (callNext_shape i st) as Hc.
  destruct (callNext i st) as [[svs| |] st1]; [|done..]. simpl in Hc.
  destruct (fillScalarPoints _ _ _ _) as [sp'| |] eqn:Hfill; [|done..].
  eapply keepsShape_trans; [exact Hc|].
  eapply keepsShape_trans; [|apply IH].
  unfold keepsShape. simpl. split_and!; try done.
  by eapply fillScalarPoints_shape.
Qed.

Lemma Next_shape ctxErr st : keepsShape st (Next ctxErr st).2.
Proof.
  unfold Next. destruct ctxErr; [done|]. unfold bind.
  pose proof (loadSeries_shape st) as Hl.
  destruct (loadSeries st) as [[[]| |] st0]; [|done..]. simpl in Hl.
  pose proof (callNext_shape (vectorIndex (op st0)) st0) as Hc.
  destruct (callNext _ st0) as [[vectors| |] st1]; simpl in Hc;
    [|by eapply keepsShape_trans..].
  destruct vectors as [|v vs]; [by eapply keepsShape_trans|].
  pose proof (pullScalars_shape (length (v :: vs))
                (seq 0 (length (nextOps st1))) 0 st1) as Hp.
  destruct (pullScalars _ _ _ st1) as [[[]| |] st2]; simpl in *;
    eapply keepsShape_trans; try exact Hl;
    by eapply keepsShape_trans.
Qed.

(** Whatever calls of [Series] and [Next] are made on an operator, and
    whatever they return, the operator keeps its function, its vector
    index, the number of its children, and the shape of [scalarPoints]: the
    number of rows and the length of every row. *)
Theorem runCalls_keeps_shape calls st :
  funcExpr (op (runCalls calls st)) = funcExpr (op st)
  ∧ vectorIndex (op (runCalls calls st)) = vectorIndex (op st)
  ∧ call (op (runCalls calls st)) = call (op st)
  ∧ length (nextOps (runCalls calls st)) = length (nextOps st)
  ∧ length <$> scalarPoints (op (runCalls calls st))
    = length <$> scalarPoints (op st).
Proof.
  change (keepsShape st (runCalls calls st)).
  unfold runCalls. revert st.
  induction calls as [|c calls IH]; intros st; [done|].
  simpl. eapply keepsShape_trans; [|apply IH].
  destruct c as [|ctxErr]; simpl.
  - unfold Series, bind. pose proof (loadSeries_shape st) as Hl.
    by destruct (loadSeries st) as [[[]| |] st0].
  - apply Next_shape.
Qed.

End ShapeInvariant.

Section ConstructorPanics.

Import function.

Context {platform : Platform} {builtins : Builtins} {machine : Machine}.

Implicit Types (fe : Call) (ops : list child) (batch : Z) (opts : Options).

(** The constructor of the general operator panics exactly when the name is
    in the instant-vector table and one of these holds: the batch size is
    negative; that many rows of [scalarPoints] are beyond the allocation
    limit; the batch size is positive and there is no operator input, or a
    row is beyond the limit; the call has no argument expression. A name
    that is not in the table never panics. *)
Theorem newInstantVectorFunctionOperator_panics_iff fe ops batch opts :
  newInstantVectorFunctionOperator fe ops batch opts = Panic
  ↔ is_Some (instantVectorFuncs !! FuncName fe)
    ∧ ((batch < 0)%Z
       ∨ (maxAlloc < batch * (3 * wordSize))%Z
       ∨ ((0 < batch)%Z
          ∧ (ops = [] ∨ (maxAlloc < (Z.of_nat (length ops) - 1) * 8)%Z))
       ∨ Args fe = []).
Proof.
  unfold newInstantVectorFunctionOperator.
  destruct (instantVectorFuncs !! FuncName fe) as [c|];
    [|split; [done|by intros [[? ?] _]]].
  destruct (makesliceOk (3 * wordSize) batch) eqn:Hm1; cbn [negb].
  2:{ apply makesliceOk_false in Hm1. split; [|done]. intros _.
      split; [by eexists|]. destruct Hm1; [by left|right; by left]. }
  apply makesliceOk_true in Hm1.
  destruct ((0 <? batch)%Z
            && negb (makesliceOk 8 (Z.of_nat (length ops) - 1))) eqn:Hm2.
  { apply andb_true_iff in Hm2 as [Hpos%Z.ltb_lt Hm2%negb_true_iff].
    apply makesliceOk_false in Hm2.
    split; [|done]. intros _. split; [by eexists|].
    right. right. left. split; [done|].
    destruct Hm2 as [Hneg|Hbig]; [left|by right].
    destruct ops; [done|]. simpl length in Hneg. lia. }
  assert (¬ ((0 < batch)%Z
             ∧ (ops = []
                ∨ (maxAlloc < (Z.of_nat (length ops) - 1) * 8)%Z))) as Hno.
  { intros [Hpos Hbad]. apply andb_false_iff in Hm2 as [Hm2|Hm2].
    - apply Z.ltb_ge in Hm2. lia.
    - apply negb_false_iff, makesliceOk_true in Hm2.
      destruct Hbad as [->|?]; simpl length in *; lia. }
  pose proof (findVectorArg_spec (Args fe) 0) as Hfind.
  destruct (findVectorArg (Args fe) 0) as [i|]; simpl.
  - destruct Hfind as (_&Hi&_). rewrite Nat.sub_0_r in Hi. rewrite Hi.
    split; [done|].
    intros (_&[?|[?|[?|Hargs]]]); [lia|lia|done|by rewrite Hargs in Hi].
  - destruct (Args fe) as [|t args]; simpl.
    + split; [|done]. intros _. split; [by eexists|]. by do 3 right.
    + split; [by destruct t|].
      intros (_&[?|[?|[?|?]]]); [lia|lia|done|done].
Qed.

End ConstructorPanics.
